(** * A shallow embedding of the GraphQL user server and its client-side link split

    The server keeps an in-memory array of users and a counter, exposes three
    mutations (createUser, updateUser, deleteUser) that publish on a PubSub bus,
    and three subscription fields that hand out async iterators of that bus.
    The client routes every operation over WebSocket or HTTP with [split]. *)

From stdpp Require Import gmap strings list fin_maps pretty sorting.
From Stdlib Require Import QArith.
Local Close Scope Q_scope.
Local Open Scope Z_scope.

(** ** JavaScript values and objects *)

(** Objects are finite maps from property names to values.  A number is kept
    as a rational: the server only stores and forwards numbers, it never
    computes with them. *)
#[warnings="-register-all"]
Inductive value :=
| VUndefined
| VNull
| VBool (b : bool)
| VNum (q : Q)
| VStr (s : string)
| VObj (o : gmap string value).

Abbreviation obj := (gmap string value).

(** [{ ...a, ...b }]: the properties of [a], overridden by those of [b]. *)
Definition spread2 (a b : obj) : obj := b ∪ a.

(** Spreading [undefined] contributes no property. *)
Definition props (v : value) : obj :=
  match v with VObj o => o | _ => ∅ end.

(** [arr[i]] for an index held in a JavaScript number. *)
Definition at_index (arr : list obj) (i : Z) : value :=
  if i <? 0 then VUndefined
  else match arr !! Z.to_nat i with Some o => VObj o | None => VUndefined end.

(** [arr.findIndex(p)]: the first index whose element satisfies [p], or -1. *)
Fixpoint findIndex {A} (p : A → bool) (arr : list A) : Z :=
  match arr with
  | [] => -1
  | x :: rest =>
      if p x then 0
      else let i := findIndex p rest in if i =? -1 then -1 else i + 1
  end.

(** [u.id === id] for a string [id]. *)
Definition id_is (id : string) (u : obj) : bool :=
  match u !! "id" with
  | Some (VStr s) => String.eqb s id
  | _ => false
  end.

(** ** The PubSub bus

    [PubSub] is the class of the graphql-subscriptions package that the server
    instantiates once; the server only calls its [publish] and
    [asyncIterator].  The model keeps what the resolvers rely on: an async
    iterator listens on the trigger names it was created with, [publish]
    hands the payload, as it is, to every listener of the trigger, and a
    listener appends the payload to the push queue of its iterator, which has
    no capacity.  Three simplifications: an iterator counts as created when
    its listeners are attached; the listener's append to the queue, which the
    package runs one microtask after [publish] has called it, within the same
    turn of the event loop, is taken as one step with [publish]; and a pull
    on an empty queue returns nothing, where the package parks the pull and
    gives it the next payload.  A handle is the position of the iterator in
    [iters]. *)

Record AsyncIterator := mkIter {
  eventsArray : list string;
  pushQueue : list obj;
  running : bool
}.

Record PubSub := mkPubSub { iters : list AsyncIterator }.

(** One listener per entry of [eventsArray]. *)
Definition pushes (triggerName : string) (payload : obj) (it : AsyncIterator)
  : list obj :=
  if running it
  then flat_map (λ e, if String.eqb e triggerName then [payload] else [])
                (eventsArray it)
  else [].

Definition pushValue (triggerName : string) (payload : obj)
  (it : AsyncIterator) : AsyncIterator :=
  mkIter (eventsArray it) (pushQueue it ++ pushes triggerName payload it)
         (running it).

Definition PubSub_publish (triggerName : string) (payload : obj) (ps : PubSub)
  : PubSub :=
  mkPubSub (pushValue triggerName payload <$> iters ps).

(** Creation of an iterator together with the attachment of its listeners. *)
Definition PubSub_asyncIterator (triggers : list string) (ps : PubSub)
  : nat * PubSub :=
  (length (iters ps), mkPubSub (iters ps ++ [mkIter triggers [] true])).

(** [next()]: the oldest queued payload, if any. *)
Definition PubSub_next (h : nat) (ps : PubSub) : option obj * PubSub :=
  match iters ps !! h with
  | Some it =>
      if running it then
        match pushQueue it with
        | p :: rest =>
            (Some p,
             mkPubSub (<[h := mkIter (eventsArray it) rest true]> (iters ps)))
        | [] => (None, ps)
        end
      else (None, ps)
  | None => (None, ps)
  end.

(** [return()]: the iterator stops, drops its queue and its listeners. *)
Definition PubSub_return (h : nat) (ps : PubSub) : PubSub :=
  match iters ps !! h with
  | Some it => mkPubSub (<[h := mkIter (eventsArray it) [] false]> (iters ps))
  | None => ps
  end.

(** ** Server state and the resolver monad *)

(** The three module-level variables.  [nextUserId] starts at 4 and only
    ever grows by one, so it is kept as a natural number: JavaScript numbers
    are exact on such integers (below 2^53), and [toString] prints them in
    decimal. *)
Record Server := mkServer {
  users : list obj;
  nextUserId : N;
  pubsub : PubSub
}.

Inductive error := Error (message : string).

(** What a resolver does to the world, in program order. *)
Inductive effect :=
| EStore (us : list obj)
| ECounter (n : N)
| EPublish (triggerName : string) (payload : obj).

Record outcome (A : Type) := Outcome {
  result : error + A;
  final : Server;
  effects : list effect
}.
Arguments Outcome {A} _ _ _.
Arguments result {A} _.
Arguments final {A} _.
Arguments effects {A} _.

(** A computation runs from a state to a value or a thrown error; a throw
    keeps the state reached so far. *)
Definition M (A : Type) : Type := Server → outcome A.

Definition ret {A} (a : A) : M A := λ s, Outcome (inr a) s [].

Definition throw {A} (e : error) : M A := λ s, Outcome (inl e) s [].

Definition bind {A B} (m : M A) (k : A → M B) : M B := λ s,
  let o1 := m s in
  match result o1 with
  | inl e => Outcome (inl e) (final o1) (effects o1)
  | inr a =>
      let o2 := k a (final o1) in
      Outcome (result o2) (final o2) (effects o1 ++ effects o2)
  end.

Notation "'let*' x := m 'in' k" := (bind m (λ x, k))
  (at level 10, x name, m at level 100, k at level 200,
   format "'[v' 'let*'  x  :=  m  'in' '/' k ']'").
Notation "m ;;; k" := (bind m (λ _, k))
  (at level 100, k at level 200, right associativity).

Definition read_users : M (list obj) := λ s, Outcome (inr (users s)) s [].

Definition write_users (us : list obj) : M unit := λ s,
  Outcome (inr tt) (mkServer us (nextUserId s) (pubsub s)) [EStore us].

Definition read_nextUserId : M N := λ s, Outcome (inr (nextUserId s)) s [].

Definition write_nextUserId (n : N) : M unit := λ s,
  Outcome (inr tt) (mkServer (users s) n (pubsub s)) [ECounter n].

Definition publish (triggerName : string) (payload : obj) : M unit := λ s,
  Outcome (inr tt)
    (mkServer (users s) (nextUserId s)
       (PubSub_publish triggerName payload (pubsub s)))
    [EPublish triggerName payload].

Definition asyncIterator (triggers : list string) : M nat := λ s,
  let '(h, ps) := PubSub_asyncIterator triggers (pubsub s) in
  Outcome (inr h) (mkServer (users s) (nextUserId s) ps) [].

(** [arr[i] = x].  A negative index names a property, not an element.  The
    resolvers only assign at an index returned by [findIndex], which lies
    within the array, where the list update and the JavaScript assignment
    agree. *)
Definition assign (arr : list obj) (i : Z) (x : obj) : list obj :=
  if i <? 0 then arr else <[Z.to_nat i := x]> arr.

(** [arr.splice(i, 1)]: a negative start counts from the end, a start past
    the end removes nothing. *)
Definition splice1 (arr : list obj) (i : Z) : list obj :=
  let len := Z.of_nat (length arr) in
  let start := if i <? 0 then Z.max (len + i) 0 else Z.min i len in
  delete (Z.to_nat start) arr.

Definition users_push (x : obj) : M unit :=
  let* us := read_users in write_users (us ++ [x]).

Definition users_assign (i : Z) (x : obj) : M unit :=
  let* us := read_users in write_users (assign us i x).

Definition users_splice1 (i : Z) : M unit :=
  let* us := read_users in write_users (splice1 us i).

Definition users_at (i : Z) : M value :=
  let* us := read_users in ret (at_index us i).

(** ** Schema input types *)

Record CreateUserInput := mkCreate {
  c_name : string;
  c_age : Z;
  c_salary : Q;
  c_department : string
}.

(** A nullable input field is left out, given as [null], or given a value. *)
Inductive field (A : Type) := Absent | Null | Given (a : A).
Arguments Absent {A}.
Arguments Null {A}.
Arguments Given {A} _.

Record UpdateUserInput := mkUpdate {
  u_name : field string;
  u_age : field Z;
  u_salary : field Q;
  u_department : field string
}.

Definition set_field {A} (k : string) (inj : A → value) (f : field A)
  (o : obj) : obj :=
  match f with
  | Absent => o
  | Null => <[k := VNull]> o
  | Given a => <[k := inj a]> o
  end.

Definition int_value (z : Z) : value := VNum (inject_Z z).

Definition create_input (i : CreateUserInput) : obj :=
  <["name" := VStr (c_name i)]>
    (<["age" := int_value (c_age i)]>
       (<["salary" := VNum (c_salary i)]>
          (<["department" := VStr (c_department i)]> ∅))).

Definition update_input (i : UpdateUserInput) : obj :=
  set_field "name" VStr (u_name i)
    (set_field "age" int_value (u_age i)
       (set_field "salary" VNum (u_salary i)
          (set_field "department" VStr (u_department i) ∅))).

(** ** Resolvers *)

Definition not_found (id : string) : error :=
  Error ("User with ID " +:+ id +:+ " not found").

Module Mutation.

(** The argument is the input object as the resolver receives it. *)
Definition createUser (input : obj) : M value :=
  let* n := read_nextUserId in
  let newUser := spread2 {["id" := VStr (pretty n)]} input in
  write_nextUserId (n + 1) ;;;
  users_push newUser ;;;
  publish "USER_CREATED" {["userCreated" := VObj newUser]} ;;;
  ret (VObj newUser).

Definition updateUser (id : string) (input : obj) : M value :=
  let* us := read_users in
  let userIndex := findIndex (id_is id) us in
  if userIndex =? -1 then throw (not_found id)
  else
    let* old := users_at userIndex in
    users_assign userIndex (spread2 (props old) input) ;;;
    let* cur := users_at userIndex in
    publish "USER_UPDATED" {["userUpdated" := cur]} ;;;
    users_at userIndex.

Definition deleteUser (id : string) : M value :=
  let* us := read_users in
  let userIndex := findIndex (id_is id) us in
  if userIndex =? -1 then throw (not_found id)
  else
    users_splice1 userIndex ;;;
    publish "USER_DELETED" {["userDeleted" := VStr id]} ;;;
    ret (VBool true).

End Mutation.

(** [null] and [undefined], the two values that cannot be destructured. *)
Definition nullish (v : value) : bool :=
  match v with
  | VUndefined | VNull => true
  | _ => false
  end.

(** The TypeError thrown when a parameter pattern [{ user }] is matched
    against a nullish argument.  The wording of its message is the engine's;
    the model keeps its class. *)
Definition destructure_error : error := Error "TypeError".

Module Subscription.

(** The third argument is the context the socket layer passes: the resolver
    takes it apart as [{ user }]; the use of [user] is commented out. *)
Definition userCreated (context : value) : M nat :=
  if nullish context then throw destructure_error
  else asyncIterator ["USER_CREATED"].

Definition userUpdated : M nat := asyncIterator ["USER_UPDATED"].

Definition userDeleted : M nat := asyncIterator ["USER_DELETED"].

End Subscription.

(** The context function given to [useServer]: its body is commented out,
    so it returns [undefined]. *)
Definition useServer_context : value := VUndefined.

(** ** Query resolvers *)

(** JavaScript truthiness, as [!user] tests it. *)
Definition truthy (v : value) : bool :=
  match v with
  | VUndefined | VNull => false
  | VBool b => b
  | VNum q => negb (Qeq_bool q (inject_Z 0))
  | VStr s => negb (String.eqb s "")
  | VObj _ => true
  end.

(** [arr.find(p)]: the first element satisfying [p], or [undefined]. *)
Definition array_find (p : obj → bool) (arr : list obj) : value :=
  match List.find p arr with
  | Some o => VObj o
  | None => VUndefined
  end.

(** [o.k]: a missing property reads as [undefined]. *)
Definition get (o : obj) (k : string) : value :=
  match o !! k with Some v => v | None => VUndefined end.

(** [arr.filter(p)] for a predicate that may throw: elements are tested in
    order and the first throw ends the call. *)
Fixpoint filter_throwing (p : obj → error + bool) (arr : list obj)
  : error + list obj :=
  match arr with
  | [] => inr []
  | x :: rest =>
      match p x with
      | inl e => inl e
      | inr b =>
          match filter_throwing p rest with
          | inl e => inl e
          | inr kept => inr (if b then x :: kept else kept)
          end
      end
  end.

Module Query.

Definition users : M (list obj) := read_users.

Definition user (id : string) : M value :=
  let* us := read_users in
  let user := array_find (id_is id) us in
  if negb (truthy user) then throw (not_found id)
  else ret user.

Section ByDepartment.

(** [String.prototype.toLowerCase] and the TypeError the engine throws when
    [toLowerCase] is called on a value that is not a string; both belong to
    the JavaScript engine. *)
Variable toLowerCase : string → string.
Variable type_error : value → error.

(** [v.toLowerCase()]. *)
Definition lower (v : value) : error + string :=
  match v with
  | VStr s => inr (toLowerCase s)
  | _ => inl (type_error v)
  end.

(** [u.department.toLowerCase() === department.toLowerCase()]. *)
Definition same_department (department : string) (u : obj) : error + bool :=
  match lower (get u "department") with
  | inl e => inl e
  | inr d => inr (String.eqb d (toLowerCase department))
  end.

Definition usersByDepartment (department : string) : M (list obj) :=
  let* us := read_users in
  match filter_throwing (same_department department) us with
  | inl e => throw e
  | inr kept => ret kept
  end.

End ByDepartment.

End Query.

(** ** The server at start-up *)

Definition user (id name : string) (age salary : Z) (department : string)
  : obj :=
  <["id" := VStr id]>
    (<["name" := VStr name]>
       (<["age" := int_value age]>
          (<["salary" := int_value salary]>
             (<["department" := VStr department]> ∅)))).

Definition initial : Server :=
  mkServer
    [ user "1" "Rahul" 25 70000 "Engineering";
      user "2" "Aisha" 30 85000 "Marketing";
      user "3" "Ravi" 22 60000 "Support" ]
    4
    (mkPubSub []).

(** ** Requests *)

Inductive write :=
| CreateUser (input : CreateUserInput)
| UpdateUser (id : string) (input : UpdateUserInput)
| DeleteUser (id : string).

Definition resolve (w : write) : M value :=
  match w with
  | CreateUser input => Mutation.createUser (create_input input)
  | UpdateUser id input => Mutation.updateUser id (update_input input)
  | DeleteUser id => Mutation.deleteUser id
  end.

(** The trigger name each mutation publishes on. *)
Definition topic_of (w : write) : string :=
  match w with
  | CreateUser _ => "USER_CREATED"
  | UpdateUser _ _ => "USER_UPDATED"
  | DeleteUser _ => "USER_DELETED"
  end.

Inductive subscription := UserCreated | UserUpdated | UserDeleted.

Definition subscribe (f : subscription) (context : value) : M nat :=
  match f with
  | UserCreated => Subscription.userCreated context
  | UserUpdated => Subscription.userUpdated
  | UserDeleted => Subscription.userDeleted
  end.

Definition trigger (f : subscription) : string :=
  match f with
  | UserCreated => "USER_CREATED"
  | UserUpdated => "USER_UPDATED"
  | UserDeleted => "USER_DELETED"
  end.

(** What reaches the server: a mutation over HTTP, a subscription over the
    socket together with the context the socket layer built for it, and the
    socket layer pulling from or closing an iterator. *)
Inductive request :=
| Mutate (w : write)
| Subscribe (f : subscription) (context : value)
| Next (h : nat)
| Return (h : nat).

Inductive response :=
| Data (v : value)
| Handle (h : nat)
| Pulled (p : option obj)
| Done.

Definition next (h : nat) : M (option obj) := λ s,
  let '(p, ps) := PubSub_next h (pubsub s) in
  Outcome (inr p) (mkServer (users s) (nextUserId s) ps) [].

Definition return_ (h : nat) : M unit := λ s,
  Outcome (inr tt)
    (mkServer (users s) (nextUserId s) (PubSub_return h (pubsub s))) [].

Definition handle (r : request) : M response :=
  match r with
  | Mutate w => let* v := resolve w in ret (Data v)
  | Subscribe f context => let* h := subscribe f context in ret (Handle h)
  | Next h => let* p := next h in ret (Pulled p)
  | Return h => return_ h ;;; ret Done
  end.

(** One log entry per request served. *)
Record entry := mkEntry {
  e_request : request;
  e_result : error + response;
  e_effects : list effect
}.

(** Requests are served one after the other; a failed request leaves the
    server running in the state the failure left. *)
Fixpoint run (rs : list request) (s : Server) : list entry * Server :=
  match rs with
  | [] => ([], s)
  | r :: rest =>
      let o := handle r s in
      let '(log, s') := run rest (final o) in
      (mkEntry r (result o) (effects o) :: log, s')
  end.

(** Payloads published on a trigger, in order. *)
Definition published_in (t : string) (es : list effect) : list obj :=
  flat_map (λ e, match e with
                 | EPublish t' p => if String.eqb t' t then [p] else []
                 | _ => []
                 end) es.

Definition published (t : string) (log : list entry) : list obj :=
  flat_map (λ e, published_in t (e_effects e)) log.

(** Payloads a consumer obtained from iterator [h], in order. *)
Definition pulled_by (h : nat) (e : entry) : list obj :=
  match e_request e, e_result e with
  | Next h', inr (Pulled (Some p)) => if Nat.eqb h' h then [p] else []
  | _, _ => []
  end.

Definition pulled (h : nat) (log : list entry) : list obj :=
  flat_map (pulled_by h) log.

Definition trace (rs : list request) (s : Server) : list entry :=
  fst (run rs s).

Definition exec (rs : list request) (s : Server) : Server := snd (run rs s).

Definition queue_of (h : nat) (s : Server) : list obj :=
  match iters (pubsub s) !! h with
  | Some it => pushQueue it
  | None => []
  end.

(** Iterator [h] is attached to trigger [t] alone. *)
Definition listening (h : nat) (t : string) (s : Server) : Prop :=
  ∃ it, iters (pubsub s) !! h = Some it
        ∧ running it = true ∧ eventsArray it = [t].

(** Iterator [h] has been closed. *)
Definition stopped (h : nat) (s : Server) : Prop :=
  ∃ it, iters (pubsub s) !! h = Some it
        ∧ running it = false ∧ pushQueue it = [].

(** ** The client: routing an operation to a transport *)

Module Client.

(** The main definition of a parsed document: its [kind] and, for an
    operation definition, its [operation]. *)
Record DefinitionNode := mkDef {
  kind : string;
  operation : option string
}.

Inductive Link := wsLink | httpLink.

Section Split.

(** [getMainDefinition] comes from the Apollo client utilities; it either
    returns a definition of the document or throws. *)
Variable DocumentNode : Type.
Variable getMainDefinition : DocumentNode → error + DefinitionNode.

Definition test (query : DocumentNode) : error + bool :=
  match getMainDefinition query with
  | inl e => inl e
  | inr definition =>
      inr (String.eqb (kind definition) "OperationDefinition"
           && match operation definition with
              | Some op => String.eqb op "subscription"
              | None => false
              end)
  end.

(** [split(test, left, right)]. *)
Definition split (test : DocumentNode → error + bool) (left right : Link)
  (query : DocumentNode) : error + Link :=
  match test query with
  | inl e => inl e
  | inr true => inr left
  | inr false => inr right
  end.

Definition splitLink : DocumentNode → error + Link :=
  split test wsLink httpLink.

End Split.

(** The classifier as the specification words it, for comparison with
    [splitLink]: one of three kinds by the declared kind of the
    operation, and a MalformedOperation error for anything else. *)
Inductive OperationKind := Read | Write | LiveSubscribe.

Definition MalformedOperation : error := Error "MalformedOperation".

Definition spec_classify (d : DefinitionNode) : error + OperationKind :=
  if String.eqb (kind d) "OperationDefinition" then
    match operation d with
    | Some op =>
        if String.eqb op "query" then inr Read
        else if String.eqb op "mutation" then inr Write
        else if String.eqb op "subscription" then inr LiveSubscribe
        else inl MalformedOperation
    | None => inl MalformedOperation
    end
  else inl MalformedOperation.

(** The transport the specification gives each kind: the streaming channel
    for a live subscription, the request/response channel otherwise. *)
Definition spec_transport (k : OperationKind) : Link :=
  match k with
  | LiveSubscribe => wsLink
  | Read | Write => httpLink
  end.

Definition spec_route (d : DefinitionNode) : error + Link :=
  match spec_classify d with
  | inl e => inl e
  | inr k => inr (spec_transport k)
  end.

(** A document that is its own main definition. *)
Definition own_definition (d : DefinitionNode) : error + DefinitionNode :=
  inr d.

Definition fragment_only : DefinitionNode :=
  mkDef "FragmentDefinition" None.

End Client.

(** ** The client: the user table *)

Module View.

(** A user as the client queries it: all five fields, non-null by the
    schema. *)
Record User := mkUser {
  id : string;
  name : string;
  age : Z;
  salary : Q;
  department : string
}.

(** [[...new Set(xs)]]: the distinct entries of [xs], each at the place of
    its first occurrence. *)
Definition set_spread (xs : list string) : list string :=
  fold_left (λ seen x, if existsb (String.eqb x) seen then seen
                       else seen ++ [x]) xs [].

(** The options of the department filter. *)
Definition departments (users : list User) : list string :=
  set_spread (map department users).

(** The rows of the table: [!departmentFilter] holds of the empty string. *)
Definition rows (departmentFilter : string) (users : list User)
  : list User :=
  List.filter (λ user, String.eqb departmentFilter ""
                       || String.eqb (department user) departmentFilter)
              users.

End View.

(** ** Vocabulary of the properties *)

(** An id is in the store when some user carries it. *)
Definition present (id : string) (us : list obj) : Prop :=
  ∃ u, u ∈ us ∧ u !! "id" = Some (VStr id).

(** The user that createUser builds from the counter and its input. *)
Definition created (n : N) (input : obj) : obj :=
  spread2 {["id" := VStr (pretty n)]} input.

(** Store effects, as opposed to publishes. *)
Definition is_mutation (e : effect) : Prop :=
  match e with EPublish _ _ => False | _ => True end.

Definition ids (us : list obj) : list (option value) :=
  (λ u : obj, u !! "id") <$> us.

(** The ids in the store are pairwise distinct and each is the decimal form
    of a number below the counter. *)
Definition store_ok (s : Server) : Prop :=
  NoDup (ids (users s))
  ∧ Forall (λ o, ∃ k : N, (k < nextUserId s)%N ∧ o = Some (VStr (pretty k)))
           (ids (users s)).

(** The property name under which each mutation wraps what it publishes. *)
Definition payload_key (w : write) : string :=
  match w with
  | CreateUser _ => "userCreated"
  | UpdateUser _ _ => "userUpdated"
  | DeleteUser _ => "userDeleted"
  end.

(** The ids of users numbered [ks], in that order. *)
Definition numbered (ks : list N) : list (option value) :=
  (λ k : N, Some (VStr (pretty k))) <$> ks.

(** The users stand in the order of their numbers, all below the counter. *)
Definition ordered (s : Server) : Prop :=
  ∃ ks, ids (users s) = numbered ks
        ∧ StronglySorted N.lt ks
        ∧ Forall (λ k, (k < nextUserId s)%N) ks.

(** The user has a department and it is a string. *)
Definition string_department (u : obj) : Prop :=
  ∃ d, u !! "department" = Some (VStr d).

(** What a subscriber finds wrapped in the event of a write that returned
    [v]: the id for deleteUser, the returned record otherwise. *)
Definition event_body (w : write) (v : value) : value :=
  match w with
  | DeleteUser id => VStr id
  | _ => v
  end.

(** The five fields of the User type of the schema. *)
Definition user_fields : gset string :=
  {["id"; "name"; "age"; "salary"; "department"]}.

(** Every user in the store has exactly the five fields. *)
Definition well_shaped (s : Server) : Prop :=
  Forall (λ u : obj, dom u = user_fields) (users s).

(** The request is a createUser. *)
Definition is_create (r : request) : bool :=
  match r with Mutate (CreateUser _) => true | _ => false end.

(** The entry is a deleteUser that succeeded. *)
Definition is_deleted (e : entry) : bool :=
  match e_request e, e_result e with
  | Mutate (DeleteUser _), inr _ => true
  | _, _ => false
  end.

(** What a write that returned [v] has done to the store by the time it
    publishes: createUser has appended the user it returns and raised the
    counter; updateUser has replaced the first user carrying the id by the
    record it returns; deleteUser has removed the first user carrying the
    id. *)
Definition committed (w : write) (v : value) (s s' : Server) : Prop :=
  match w with
  | CreateUser input =>
      let u := created (nextUserId s) (create_input input) in
      v = VObj u
      ∧ users s' = users s ++ [u]
      ∧ nextUserId s' = (nextUserId s + 1)%N
  | UpdateUser id input =>
      let i := Z.to_nat (findIndex (id_is id) (users s)) in
      ∃ old, users s !! i = Some old
             ∧ old !! "id" = Some (VStr id)
             ∧ v = VObj (spread2 old (update_input input))
             ∧ users s' = <[i := spread2 old (update_input input)]> (users s)
             ∧ nextUserId s' = nextUserId s
  | DeleteUser id =>
      let i := Z.to_nat (findIndex (id_is id) (users s)) in
      ∃ u, users s !! i = Some u
           ∧ u !! "id" = Some (VStr id)
           ∧ v = VBool true
           ∧ users s' = delete i (users s)
           ∧ nextUserId s' = nextUserId s
  end.

(** ** Sample inputs *)

Definition sample_create : CreateUserInput :=
  mkCreate "X" 41 (inject_Z 50000) "Sales".

Definition sample_patch : UpdateUserInput :=
  mkUpdate Absent (Given 31) Absent Absent.

(** A context as the context function returns it once its body is put back
    in: [{ user }] with [user = "ndk"]. *)
Definition sample_context : value := VObj {["user" := VStr "ndk"]}.

(** The server at start-up with one subscriber on each trigger:
    handle 0 on USER_CREATED, 1 on USER_UPDATED, 2 on USER_DELETED. *)
Definition sample_server : Server :=
  snd (run [Subscribe UserCreated sample_context;
            Subscribe UserUpdated sample_context;
            Subscribe UserDeleted sample_context] initial).

(** A run that mixes mutations on all three triggers with pulls. *)
Definition sample_run : list request :=
  [Mutate (CreateUser sample_create); Next 0%nat;
   Mutate (UpdateUser "2" sample_patch); Mutate (CreateUser sample_create);
   Mutate (DeleteUser "1"); Next 0%nat].

(** [n] createUser requests in a row. *)
Definition burst (n : nat) : list request :=
  replicate n (Mutate (CreateUser sample_create)).

(** Lower case on the letters A to Z. *)
Fixpoint sample_lower (s : string) : string :=
  match s with
  | EmptyString => EmptyString
  | String c rest =>
      let n := Ascii.nat_of_ascii c in
      String (if (65 <=? n)%nat && (n <=? 90)%nat
              then Ascii.ascii_of_nat (n + 32) else c)
             (sample_lower rest)
  end.

Definition sample_type_error (v : value) : error :=
  Error "TypeError".

(** The server after the department of user 1 has been set to [null]. *)
Definition sample_nulled : Server :=
  final (resolve (UpdateUser "1" (mkUpdate Absent Absent Absent Null))
           initial).

Definition sample_table : list View.User :=
  [ View.mkUser "1" "Rahul" 25 (inject_Z 70000) "Engineering";
    View.mkUser "2" "Aisha" 30 (inject_Z 85000) "Marketing";
    View.mkUser "3" "Ravi" 22 (inject_Z 60000) "Engineering" ].

(** The server as it is configured, after a client has asked for all three
    subscriptions: userCreated failed on the context, so handle 0 is on
    USER_UPDATED and handle 1 on USER_DELETED. *)
Definition live_server : Server :=
  snd (run [Subscribe UserCreated useServer_context;
            Subscribe UserUpdated useServer_context;
            Subscribe UserDeleted useServer_context] initial).

(** [n] updateUser requests in a row on user 2. *)
Definition update_burst (n : nat) : list request :=
  replicate n (Mutate (UpdateUser "2" sample_patch)).

(** * Properties *)

(** ** Arrays *)

Lemma findIndex_range {A} (p : A → bool) (arr : list A) :
  findIndex p arr = -1 ∨ 0 ≤ findIndex p arr < Z.of_nat (length arr).
Proof.
  induction arr as [|x rest IH]; simpl; [by left|].
  destruct (p x); [right; lia|].
  destruct IH as [-> | IH]; [by left|].
  destruct (Z.eqb_spec (findIndex p rest) (-1)); [by left | right; lia].
Qed.

Lemma findIndex_none {A} (p : A → bool) (arr : list A) :
  findIndex p arr = -1 ↔ ∀ x, x ∈ arr → p x = false.
Proof.
  induction arr as [|x rest IH]; simpl.
  - split; [intros _ y Hy; by apply elem_of_nil in Hy | done].
  - destruct (p x) eqn:Hpx.
    + split; [done|]. intros H. specialize (H x (list_elem_of_here _ _)).
      congruence.
    + destruct (Z.eqb_spec (findIndex p rest) (-1)) as [E|E].
      * split; [|done]. intros _ y Hy. apply elem_of_cons in Hy as [->|Hy];
          [done | by apply IH].
      * pose proof (findIndex_range p rest) as Hr. split; [lia|].
        intros H. exfalso. apply E, IH. intros y Hy. apply H. by right.
Qed.

Lemma findIndex_some {A} (p : A → bool) (arr : list A) :
  findIndex p arr ≠ -1 →
  ∃ x, arr !! Z.to_nat (findIndex p arr) = Some x ∧ p x = true
       ∧ ∀ j y, (j < Z.to_nat (findIndex p arr))%nat →
                arr !! j = Some y → p y = false.
Proof.
  induction arr as [|x rest IH]; simpl; [done|].
  destruct (p x) eqn:Hpx.
  - intros _. exists x. repeat split; [done|]. intros j y Hj. simpl in Hj. lia.
  - destruct (Z.eqb_spec (findIndex p rest) (-1)) as [E|E]; [done|]. intros _.
    destruct (IH E) as (y & Hy & Hpy & Hmin).
    pose proof (findIndex_range p rest) as [?|Hr]; [done|].
    replace (Z.to_nat (findIndex p rest + 1))
      with (S (Z.to_nat (findIndex p rest))) by lia.
    exists y. repeat split; [done..|].
    intros [|j] z Hj Hz; simpl in Hz; [congruence|].
    apply (Hmin j); [lia | done].
Qed.

Lemma id_is_true id u : id_is id u = true ↔ u !! "id" = Some (VStr id).
Proof.
  unfold id_is. destruct (u !! "id") as [[| | | |s|]|]; try (split; done).
  destruct (String.eqb_spec s id); split; congruence.
Qed.

Lemma findIndex_present id us :
  findIndex (id_is id) us ≠ -1 ↔ present id us.
Proof.
  split.
  - intros H. destruct (findIndex_some _ _ H) as (u & Hu & Hp & _).
    exists u. split; [by eapply list_elem_of_lookup_2 | by apply id_is_true].
  - intros (u & Hu & Hid) E. rewrite findIndex_none in E.
    apply id_is_true in Hid. specialize (E u Hu). congruence.
Qed.

Lemma at_index_lookup (arr : list obj) (i : Z) (x : obj) :
  0 ≤ i → arr !! Z.to_nat i = Some x → at_index arr i = VObj x.
Proof.
  intros Hi Hx. unfold at_index. destruct (Z.ltb_spec i 0); [lia|].
  by rewrite Hx.
Qed.

(** ** What each resolver computes *)

Lemma createUser_outcome input s :
  Mutation.createUser input s =
  let newUser := created (nextUserId s) input in
  let payload := {["userCreated" := VObj newUser]} in
  Outcome (inr (VObj newUser))
    (mkServer (users s ++ [newUser]) (nextUserId s + 1)
       (PubSub_publish "USER_CREATED" payload (pubsub s)))
    [ECounter (nextUserId s + 1); EStore (users s ++ [newUser]);
     EPublish "USER_CREATED" payload].
Proof. reflexivity. Qed.

Lemma updateUser_missing id input s :
  findIndex (id_is id) (users s) = -1 →
  Mutation.updateUser id input s = Outcome (inl (not_found id)) s [].
Proof.
  intros E. unfold Mutation.updateUser, bind. simpl. by rewrite E.
Qed.

Lemma deleteUser_missing id s :
  findIndex (id_is id) (users s) = -1 →
  Mutation.deleteUser id s = Outcome (inl (not_found id)) s [].
Proof.
  intros E. unfold Mutation.deleteUser, bind. simpl. by rewrite E.
Qed.

Lemma updateUser_found id input s i old :
  findIndex (id_is id) (users s) = i → i ≠ -1 →
  users s !! Z.to_nat i = Some old →
  Mutation.updateUser id input s =
  let new := spread2 old input in
  let us := <[Z.to_nat i := new]> (users s) in
  let payload := {["userUpdated" := VObj new]} in
  Outcome (inr (VObj new))
    (mkServer us (nextUserId s)
       (PubSub_publish "USER_UPDATED" payload (pubsub s)))
    [EStore us; EPublish "USER_UPDATED" payload].
Proof.
  intros E Hi Hold.
  pose proof (findIndex_range (id_is id) (users s)) as [?|Hr]; [congruence|].
  rewrite E in Hr.
  assert (Hnew : at_index (assign (users s) i (spread2 old input)) i
                 = VObj (spread2 old input)).
  { apply at_index_lookup; [lia|]. unfold assign.
    destruct (Z.ltb_spec i 0); [lia|].
    apply list_lookup_insert_eq. lia. }
  unfold Mutation.updateUser, bind. simpl. rewrite E.
  destruct (Z.eqb_spec i (-1)); [done|]. simpl.
  assert (Hat : at_index (users s) i = VObj old)
    by (apply at_index_lookup; [lia | done]).
  rewrite Hat. simpl. rewrite Hnew.
  unfold assign. destruct (Z.ltb_spec i 0); [lia|]. reflexivity.
Qed.

Lemma deleteUser_found id s i :
  findIndex (id_is id) (users s) = i → i ≠ -1 →
  Mutation.deleteUser id s =
  let us := delete (Z.to_nat i) (users s) in
  let payload := {["userDeleted" := VStr id]} in
  Outcome (inr (VBool true))
    (mkServer us (nextUserId s)
       (PubSub_publish "USER_DELETED" payload (pubsub s)))
    [EStore us; EPublish "USER_DELETED" payload].
Proof.
  intros E Hi.
  pose proof (findIndex_range (id_is id) (users s)) as [?|Hr]; [congruence|].
  rewrite E in Hr.
  unfold Mutation.deleteUser, bind. simpl. rewrite E.
  destruct (Z.eqb_spec i (-1)); [done|]. simpl.
  unfold splice1. destruct (Z.ltb_spec i 0); [lia|].
  by rewrite Z.min_l by lia.
Qed.

(** Every mutation either throws before touching anything, or mutates the
    store and then publishes once on its own trigger. *)
Lemma resolve_cases w s :
  (∃ e, resolve w s = Outcome (inl e) s [])
  ∨ (∃ v us n p muts,
        resolve w s =
        Outcome (inr v)
          (mkServer us n (PubSub_publish (topic_of w) p (pubsub s)))
          (muts ++ [EPublish (topic_of w) p])
        ∧ (muts = [EStore us] ∨ muts = [ECounter n; EStore us])).
Proof.
  destruct w as [input|id input|id]; simpl.
  - right. rewrite createUser_outcome. simpl.
    eexists _, _, _, _, [_; _]. split; [reflexivity | by right].
  - destruct (Z.eq_dec (findIndex (id_is id) (users s)) (-1)) as [E|E].
    + left. eexists. by apply updateUser_missing.
    + right. destruct (findIndex_some _ _ E) as (old & Hold & _).
      rewrite (updateUser_found id _ s _ old eq_refl E Hold). simpl.
      eexists _, _, _, _, [_]. split; [reflexivity | by left].
  - destruct (Z.eq_dec (findIndex (id_is id) (users s)) (-1)) as [E|E].
    + left. eexists. by apply deleteUser_missing.
    + right. rewrite (deleteUser_found id s _ eq_refl E). simpl.
      eexists _, _, _, _, [_]. split; [reflexivity | by left].
Qed.

(** ** The bus *)

Lemma publish_lookup t p ps h :
  iters (PubSub_publish t p ps) !! h = pushValue t p <$> iters ps !! h.
Proof. unfold PubSub_publish. simpl. apply list_lookup_fmap. Qed.

Lemma pushes_single t t' p it :
  running it = true → eventsArray it = [t'] →
  pushes t p it = if String.eqb t' t then [p] else [].
Proof.
  intros Hr He. unfold pushes. rewrite Hr, He. simpl.
  destruct (String.eqb t' t); by simpl.
Qed.

Lemma publish_listening t p h t' s us n :
  listening h t' s →
  listening h t' (mkServer us n (PubSub_publish t p (pubsub s))).
Proof.
  intros (it & Hit & Hr & He). exists (pushValue t p it). cbn [pubsub].
  rewrite publish_lookup, Hit. done.
Qed.

Lemma publish_queue t p h t' s us n :
  listening h t' s →
  queue_of h (mkServer us n (PubSub_publish t p (pubsub s))) =
  queue_of h s ++ (if String.eqb t' t then [p] else []).
Proof.
  intros (it & Hit & Hr & He). unfold queue_of. cbn [pubsub].
  rewrite publish_lookup, Hit. cbn [fmap option_fmap option_map pushValue pushQueue].
  by rewrite (pushes_single _ t').
Qed.

(** C1: a successful write first mutates the store, then publishes on its
    trigger, then returns.  Its effects are store mutations followed by one
    publish; the store written last is the store the caller finds, and it
    holds the change the write returns; the event published is the
    corresponding one: on the write's trigger, wrapping the record the write
    returns (for deleteUser, the id).  So the bus has been handed the event
    before the caller has the result. *)
Theorem publish_after_commit_before_return w s v :
  result (resolve w s) = inr v →
  ∃ muts,
    effects (resolve w s)
    = muts ++ [EPublish (topic_of w) {[payload_key w := event_body w v]}]
    ∧ Forall is_mutation muts
    ∧ last muts = Some (EStore (users (final (resolve w s))))
    ∧ committed w v s (final (resolve w s)).
Proof.
  destruct w as [input|id input|id];
    cbn [resolve topic_of payload_key event_body committed].
  - rewrite createUser_outcome. cbn [result final effects users nextUserId].
    intros [= <-]. eexists [_; _]. split; [reflexivity|].
    split; [by repeat constructor|]. by split.
  - destruct (Z.eq_dec (findIndex (id_is id) (users s)) (-1)) as [E|E].
    { by rewrite updateUser_missing. }
    destruct (findIndex_some _ _ E) as (old & Hold & Hp & _).
    rewrite (updateUser_found id _ s _ old eq_refl E Hold).
    cbn [result final effects users nextUserId]. intros [= <-].
    eexists [_]. split; [reflexivity|]. split; [by repeat constructor|].
    split; [done|]. exists old. by rewrite <- id_is_true.
  - destruct (Z.eq_dec (findIndex (id_is id) (users s)) (-1)) as [E|E].
    { by rewrite deleteUser_missing. }
    destruct (findIndex_some _ _ E) as (u & Hu & Hp & _).
    rewrite (deleteUser_found id s _ eq_refl E).
    cbn [result final effects users nextUserId]. intros [= <-].
    eexists [_]. split; [reflexivity|]. split; [by repeat constructor|].
    split; [done|]. exists u. by rewrite <- id_is_true.
Qed.

(** C2: a write that fails leaves the whole server state as it was and has
    no effect at all; a write that succeeds has mutated the store and
    published exactly one event on its trigger.  So the store never changes
    without an event being queued. *)
Theorem write_and_publish_atomic w s :
  match result (resolve w s) with
  | inl _ => final (resolve w s) = s ∧ effects (resolve w s) = []
  | inr _ =>
      ∃ p, published_in (topic_of w) (effects (resolve w s)) = [p]
           ∧ EStore (users (final (resolve w s))) ∈ effects (resolve w s)
           ∧ pubsub (final (resolve w s)) =
             PubSub_publish (topic_of w) p (pubsub s)
  end.
Proof.
  destruct (resolve_cases w s) as [[e E] | (v' & us & n & p & muts & E & Hm)];
    rewrite E; simpl; [done|].
  exists p. unfold published_in.
  destruct Hm as [-> | ->]; simpl; rewrite String.eqb_refl; simpl;
    repeat split; auto; set_solver.
Qed.

Lemma publish_after_commit_before_return_witness :
  ∃ muts,
    effects (resolve (CreateUser sample_create) sample_server)
    = muts ++ [EPublish "USER_CREATED"
                 {["userCreated" :=
                     VObj (created 4 (create_input sample_create))]}]
    ∧ Forall is_mutation muts
    ∧ last muts =
      Some (EStore (users (final (resolve (CreateUser sample_create)
                                    sample_server))))
    ∧ committed (CreateUser sample_create)
        (VObj (created 4 (create_input sample_create))) sample_server
        (final (resolve (CreateUser sample_create) sample_server)).
Proof.
  apply (publish_after_commit_before_return (CreateUser sample_create)
           sample_server
           (VObj (created 4 (create_input sample_create)))).
  reflexivity.
Defined.

(** C7: on an id that no user carries, updateUser and deleteUser throw the
    not-found error and leave the server as it was; on an id that some user
    carries, updateUser returns the record now stored for that user and
    deleteUser returns true. *)
Theorem not_found_or_result id input s :
  (¬ present id (users s) →
     Mutation.updateUser id input s = Outcome (inl (not_found id)) s []
     ∧ Mutation.deleteUser id s = Outcome (inl (not_found id)) s [])
  ∧ (present id (users s) →
     (∃ old,
         users s !! Z.to_nat (findIndex (id_is id) (users s)) = Some old
         ∧ old !! "id" = Some (VStr id)
         ∧ result (Mutation.updateUser id input s)
           = inr (VObj (spread2 old input))
         ∧ users (final (Mutation.updateUser id input s))
             !! Z.to_nat (findIndex (id_is id) (users s))
           = Some (spread2 old input))
     ∧ result (Mutation.deleteUser id s) = inr (VBool true)).
Proof.
  split; intros H.
  - assert (E : findIndex (id_is id) (users s) = -1).
    { destruct (Z.eq_dec (findIndex (id_is id) (users s)) (-1)); [done|].
      exfalso. by apply H, findIndex_present. }
    split; [by apply updateUser_missing | by apply deleteUser_missing].
  - apply findIndex_present in H.
    destruct (findIndex_some _ _ H) as (old & Hold & Hp & _).
    pose proof (findIndex_range (id_is id) (users s)) as [?|Hr]; [done|].
    split.
    + exists old. rewrite (updateUser_found id input s _ old eq_refl H Hold).
      simpl. repeat split; [done | by apply id_is_true |].
      apply list_lookup_insert_eq. lia.
    + by rewrite (deleteUser_found id s _ eq_refl H).
Qed.

Lemma absent_7 : ¬ present "7" (users initial).
Proof. intros H. by apply findIndex_present in H. Qed.

Lemma present_2 : present "2" (users initial).
Proof. by apply findIndex_present. Qed.

Lemma not_found_or_result_witness :
  (Mutation.updateUser "7" (update_input sample_patch) initial
   = Outcome (inl (Error "User with ID 7 not found")) initial []
   ∧ Mutation.deleteUser "7" initial
     = Outcome (inl (Error "User with ID 7 not found")) initial [])
  ∧ result (Mutation.deleteUser "2" initial) = inr (VBool true).
Proof.
  split.
  - apply (not_found_or_result "7" (update_input sample_patch) initial).
    exact absent_7.
  - apply (not_found_or_result "2" (update_input sample_patch) initial).
    exact present_2.
Defined.

(** C10: on an id that some user carries, updateUser changes the array at
    the index of the first such user only; the array keeps its length, every
    other element is as before, and in the element it replaces every
    property the patch does not mention keeps its value while every property
    the patch mentions takes the patch's value. *)
Theorem updateUser_frame id input s :
  present id (users s) →
  let i := Z.to_nat (findIndex (id_is id) (users s)) in
  let s' := final (Mutation.updateUser id input s) in
  length (users s') = length (users s)
  ∧ (∀ j, j ≠ i → users s' !! j = users s !! j)
  ∧ ∃ old new,
      users s !! i = Some old ∧ old !! "id" = Some (VStr id)
      ∧ users s' !! i = Some new
      ∧ (∀ k, input !! k = None → new !! k = old !! k)
      ∧ (∀ k v, input !! k = Some v → new !! k = Some v).
Proof.
  intros H i s'. apply findIndex_present in H.
  destruct (findIndex_some _ _ H) as (old & Hold & Hp & _).
  pose proof (findIndex_range (id_is id) (users s)) as [?|Hr]; [done|].
  subst s'. rewrite (updateUser_found id input s _ old eq_refl H Hold).
  simpl. fold i in Hold |- *. split; [apply length_insert|].
  split; [intros j Hj; by apply list_lookup_insert_ne|].
  exists old, (spread2 old input).
  split; [done|]. split; [by apply id_is_true|].
  split; [apply list_lookup_insert_eq; lia|]. unfold spread2.
  split.
  - intros k Hk. by rewrite lookup_union_r.
  - intros k v Hk. by apply lookup_union_Some_l.
Qed.

Lemma updateUser_frame_witness :
  let s' := final (Mutation.updateUser "2" (update_input sample_patch)
                     initial) in
  length (users s') = length (users initial)
  ∧ (∀ j, j ≠ 1%nat → users s' !! j = users initial !! j)
  ∧ ∃ old new,
      users initial !! 1%nat = Some old ∧ old !! "id" = Some (VStr "2")
      ∧ users s' !! 1%nat = Some new
      ∧ (∀ k, update_input sample_patch !! k = None → new !! k = old !! k)
      ∧ (∀ k v, update_input sample_patch !! k = Some v → new !! k = Some v).
Proof.
  exact (updateUser_frame "2" (update_input sample_patch) initial present_2).
Defined.

(** ** User ids *)

Lemma exec_cons r rs s : exec (r :: rs) s = exec rs (final (handle r s)).
Proof.
  unfold exec. simpl. by destruct (run rs (final (handle r s))).
Qed.

Lemma exec_app rs1 rs2 s : exec (rs1 ++ rs2) s = exec rs2 (exec rs1 s).
Proof.
  revert s. induction rs1 as [|r rs1 IH]; intros s; [done|].
  simpl. by rewrite !exec_cons, IH.
Qed.

Lemma handle_mutate w s :
  final (handle (Mutate w) s) = final (resolve w s)
  ∧ effects (handle (Mutate w) s) = effects (resolve w s)
  ∧ result (handle (Mutate w) s) = sum_map id Data (result (resolve w s)).
Proof.
  unfold handle, bind. destruct (result (resolve w s)); simpl;
    by rewrite ?app_nil_r.
Qed.

(** A subscription either fails on the context, registering nothing, or
    appends one iterator on its own trigger with an empty queue. *)
Lemma subscribe_cases f c s :
  (f = UserCreated ∧ nullish c = true
   ∧ subscribe f c s = Outcome (inl destructure_error) s [])
  ∨ ((f = UserCreated → nullish c = false)
     ∧ subscribe f c s =
       Outcome (inr (length (iters (pubsub s))))
         (mkServer (users s) (nextUserId s)
            (mkPubSub (iters (pubsub s) ++ [mkIter [trigger f] [] true])))
         []).
Proof.
  destruct f; cbn [subscribe trigger]; [|by right..].
  unfold Subscription.userCreated. destruct (nullish c); [by left|].
  by right.
Qed.

Lemma handle_subscribe f c s :
  final (handle (Subscribe f c) s) = final (subscribe f c s)
  ∧ effects (handle (Subscribe f c) s) = []
  ∧ result (handle (Subscribe f c) s)
    = sum_map id Handle (result (subscribe f c s)).
Proof.
  unfold handle, bind.
  destruct (subscribe_cases f c s) as [(_ & _ & ->) | (_ & ->)]; done.
Qed.

Lemma handle_subscribe_lookup f c s h it :
  iters (pubsub s) !! h = Some it →
  iters (pubsub (final (handle (Subscribe f c) s))) !! h = Some it.
Proof.
  intros Hit. destruct (handle_subscribe f c s) as (-> & _).
  destruct (subscribe_cases f c s) as [(_ & _ & ->) | (_ & ->)]; [done|].
  cbn [final pubsub iters]. by apply lookup_app_l_Some.
Qed.

Lemma handle_store r s :
  (∀ w, r ≠ Mutate w) →
  users (final (handle r s)) = users s
  ∧ nextUserId (final (handle r s)) = nextUserId s
  ∧ effects (handle r s) = [].
Proof.
  intros Hr. destruct r as [w|f c|h|h]; [by destruct (Hr w)|..].
  - destruct (handle_subscribe f c s) as (-> & -> & _).
    by destruct (subscribe_cases f c s) as [(_ & _ & ->) | (_ & ->)].
  - unfold handle, bind, next. simpl. by destruct (PubSub_next h (pubsub s)).
  - done.
Qed.

Lemma create_input_id input : create_input input !! "id" = None.
Proof. done. Qed.

Lemma set_field_id {A} k (inj : A → value) f (o : obj) :
  k ≠ "id" → set_field k inj f o !! "id" = o !! "id".
Proof. intros Hk. destruct f; simpl; by rewrite ?lookup_insert_ne. Qed.

Lemma update_input_id input : update_input input !! "id" = None.
Proof. unfold update_input. by rewrite !set_field_id. Qed.

Lemma created_id n input :
  input !! "id" = None → created n input !! "id" = Some (VStr (pretty n)).
Proof.
  intros H. unfold created, spread2. rewrite lookup_union_r by done.
  apply lookup_singleton_eq.
Qed.

Lemma fresh_id s :
  store_ok s → Some (VStr (pretty (nextUserId s))) ∉ ids (users s).
Proof.
  intros [_ Hb] Hin. rewrite Forall_forall in Hb.
  destruct (Hb _ Hin) as (k & Hk & E).
  assert (pretty (nextUserId s) = pretty k) as E' by congruence.
  apply (inj pretty) in E'. lia.
Qed.

Lemma resolve_store_ok w s : store_ok s → store_ok (final (resolve w s)).
Proof.
  intros Hs. pose proof Hs as [Hnd Hb].
  destruct w as [input|id input|id]; cbn [resolve].
  - rewrite createUser_outcome. simpl. unfold store_ok, ids; simpl.
    rewrite fmap_app. simpl. rewrite created_id by apply create_input_id.
    fold (ids (users s)). split.
    + apply NoDup_app. split; [done|]. split; [|apply NoDup_singleton].
      intros o Ho Ho'. apply list_elem_of_singleton in Ho'. subst o.
      by apply (fresh_id s).
    + apply Forall_app. split.
      * eapply Forall_impl; [exact Hb|]. intros o (k & Hk & ->).
        exists k. split; [lia | done].
      * constructor; [|constructor]. exists (nextUserId s).
        split; [lia | done].
  - destruct (Z.eq_dec (findIndex (id_is id) (users s)) (-1)) as [E|E].
    + by rewrite updateUser_missing.
    + destruct (findIndex_some _ _ E) as (old & Hold & _).
      rewrite (updateUser_found id _ s _ old eq_refl E Hold). simpl.
      unfold store_ok, ids; simpl. rewrite list_fmap_insert.
      unfold spread2. rewrite lookup_union_r by apply update_input_id.
      rewrite list_insert_id; [done|]. by rewrite list_lookup_fmap, Hold.
  - destruct (Z.eq_dec (findIndex (id_is id) (users s)) (-1)) as [E|E].
    + by rewrite deleteUser_missing.
    + rewrite (deleteUser_found id s _ eq_refl E). simpl.
      unfold store_ok, ids; simpl. rewrite list_fmap_delete. split.
      * eapply sublist_NoDup; [exact Hnd | apply sublist_delete].
      * rewrite Forall_forall in Hb |- *. intros o Ho. apply Hb.
        eapply elem_of_sublist; [exact Ho | apply sublist_delete].
Qed.

Lemma handle_store_ok r s : store_ok s → store_ok (final (handle r s)).
Proof.
  intros Hs. destruct r as [w|f c|h|h].
  - destruct (handle_mutate w s) as (-> & _). by apply resolve_store_ok.
  - destruct (handle_store (Subscribe f c) s) as (Hu & Hn & _); [done|].
    unfold store_ok. by rewrite Hu, Hn.
  - destruct (handle_store (Next h) s) as (Hu & Hn & _); [done|].
    unfold store_ok. by rewrite Hu, Hn.
  - destruct (handle_store (Return h) s) as (Hu & Hn & _); [done|].
    unfold store_ok. by rewrite Hu, Hn.
Qed.

Lemma exec_store_ok rs s : store_ok s → store_ok (exec rs s).
Proof.
  revert s. induction rs as [|r rs IH]; intros s Hs; [done|].
  rewrite exec_cons. by apply IH, handle_store_ok.
Qed.

Lemma initial_store_ok : store_ok initial.
Proof.
  split.
  - unfold ids; simpl.
    repeat (apply NoDup_cons; split;
            [intros H;
             repeat (apply elem_of_cons in H as [H|H]; [discriminate|]);
             by apply elem_of_nil in H|]).
    apply NoDup_nil_2.
  - unfold ids; simpl. repeat constructor;
      [by exists 1%N | by exists 2%N | by exists 3%N].
Qed.

Lemma resolve_counter w s :
  (nextUserId s ≤ nextUserId (final (resolve w s)))%N.
Proof.
  destruct (resolve_cases w s) as [[e E] | (v & us & n & p & muts & E & Hm)].
  - by rewrite E.
  - destruct w as [input|id input|id]; cbn [resolve].
    + rewrite createUser_outcome. simpl. lia.
    + destruct (Z.eq_dec (findIndex (id_is id) (users s)) (-1)) as [E'|E'].
      * by rewrite updateUser_missing.
      * destruct (findIndex_some _ _ E') as (old & Hold & _).
        by rewrite (updateUser_found id _ s _ old eq_refl E' Hold).
    + destruct (Z.eq_dec (findIndex (id_is id) (users s)) (-1)) as [E'|E'].
      * by rewrite deleteUser_missing.
      * by rewrite (deleteUser_found id s _ eq_refl E').
Qed.

Lemma exec_counter rs s : (nextUserId s ≤ nextUserId (exec rs s))%N.
Proof.
  revert s. induction rs as [|r rs IH]; intros s; [done|].
  rewrite exec_cons. etrans; [|apply IH].
  destruct r as [w|f c|h|h].
  - destruct (handle_mutate w s) as (-> & _). apply resolve_counter.
  - by destruct (handle_store (Subscribe f c) s) as (_ & -> & _).
  - by destruct (handle_store (Next h) s) as (_ & -> & _).
  - by destruct (handle_store (Return h) s) as (_ & -> & _).
Qed.

(** C9: in every state the server reaches from start-up, the ids in the
    store are pairwise distinct and each is the decimal form of a number
    below the counter; createUser gives the new user the decimal form of the
    counter, which no user in the store carries, and raises the counter, so
    that a later createUser draws a strictly greater number. *)
Theorem ids_distinct_and_fresh (rs : list request) :
  let s := exec rs initial in
  NoDup (ids (users s))
  ∧ Forall (λ o, ∃ k : N, (k < nextUserId s)%N ∧ o = Some (VStr (pretty k)))
           (ids (users s))
  ∧ ∀ input,
      let o := resolve (CreateUser input) s in
      ∃ newUser,
        result o = inr (VObj newUser)
        ∧ users (final o) = users s ++ [newUser]
        ∧ newUser !! "id" = Some (VStr (pretty (nextUserId s)))
        ∧ ¬ (newUser !! "id" ∈ ids (users s))
        ∧ ∀ rs' input',
            let s' := exec rs' (final o) in
            ∃ n', (nextUserId s < n')%N
                  ∧ result (resolve (CreateUser input') s')
                    = inr (VObj (created n' (create_input input'))).
Proof.
  intros s. assert (Hs : store_ok s) by apply exec_store_ok, initial_store_ok.
  destruct Hs as [Hnd Hb]. split; [done|]. split; [done|].
  intros input o. exists (created (nextUserId s) (create_input input)).
  subst o. cbn [resolve]. rewrite createUser_outcome. simpl.
  rewrite created_id by apply create_input_id.
  split; [done|]. split; [done|]. split; [done|].
  split; [by apply fresh_id|].
  intros rs' input'. eexists. split; [|reflexivity].
  eapply N.lt_le_trans; [|apply exec_counter]. simpl. lia.
Qed.

(** ** Delivery *)

Lemma trace_cons r rs s :
  trace (r :: rs) s =
  mkEntry r (result (handle r s)) (effects (handle r s))
  :: trace rs (final (handle r s)).
Proof.
  unfold trace. simpl. by destruct (run rs (final (handle r s))).
Qed.

Lemma published_cons t e log :
  published t (e :: log) = published_in t (e_effects e) ++ published t log.
Proof. done. Qed.

Lemma pulled_cons h e log :
  pulled h (e :: log) = pulled_by h e ++ pulled h log.
Proof. done. Qed.

Lemma published_in_write t t' p muts :
  (muts = [] ∨ ∃ us, muts = [EStore us] ∨ ∃ n, muts = [ECounter n; EStore us]) →
  published_in t (muts ++ [EPublish t' p]) =
  if String.eqb t' t then [p] else [].
Proof.
  unfold published_in.
  intros [-> | [us [-> | [n ->]]]]; simpl; by rewrite app_nil_r.
Qed.

Lemma pushValue_other t p it :
  t ∉ eventsArray it → pushValue t p it = it.
Proof.
  intros Hn. unfold pushValue, pushes. destruct it as [ev q r]; simpl in *.
  f_equal. destruct r; [|by rewrite app_nil_r].
  induction ev as [|e ev IH]; simpl; [by rewrite app_nil_r|].
  apply not_elem_of_cons in Hn as [Hne Hn].
  destruct (String.eqb_spec e t); [congruence|]. by apply IH.
Qed.

Lemma next_outcome h s :
  next h s =
  Outcome (inr (fst (PubSub_next h (pubsub s))))
    (mkServer (users s) (nextUserId s) (snd (PubSub_next h (pubsub s)))) [].
Proof. unfold next. by destruct (PubSub_next h (pubsub s)). Qed.

Lemma PubSub_next_other h h' ps :
  h' ≠ h → iters (snd (PubSub_next h' ps)) !! h = iters ps !! h.
Proof.
  intros Hne. unfold PubSub_next.
  destruct (iters ps !! h') as [it|]; [|done].
  destruct (running it); [|done]. destruct (pushQueue it); [done|].
  simpl. by apply list_lookup_insert_ne.
Qed.

Lemma PubSub_return_other h h' ps :
  h' ≠ h → iters (PubSub_return h' ps) !! h = iters ps !! h.
Proof.
  intros Hne. unfold PubSub_return.
  destruct (iters ps !! h') as [it|]; [|done].
  simpl. by apply list_lookup_insert_ne.
Qed.

Lemma pulled_by_other h h' res effs :
  h' ≠ h → pulled_by h (mkEntry (Next h') res effs) = [].
Proof.
  intros Hne. unfold pulled_by. simpl.
  destruct res as [|[| |[p|]|]]; try done.
  by destruct (Nat.eqb_spec h' h).
Qed.

(** One request, seen from an attached iterator: what was queued and what
    the request published is what the request pulled and what stays queued;
    unless the request closes the iterator. *)
Lemma step_listening r s h t :
  listening h t s →
  (listening h t (final (handle r s))
   ∧ queue_of h s ++ published_in t (effects (handle r s))
     = pulled_by h (mkEntry r (result (handle r s)) (effects (handle r s)))
       ++ queue_of h (final (handle r s)))
  ∨ (r = Return h ∧ stopped h (final (handle r s))
     ∧ effects (handle r s) = []).
Proof.
  intros Hl. destruct r as [w|f c|h'|h'].
  - left. destruct (handle_mutate w s) as (-> & -> & ->).
    destruct (resolve_cases w s) as [[e E] | (v & us & n & p & muts & E & Hm)];
      rewrite E; simpl.
    + split; [done|]. unfold pulled_by; simpl. by rewrite app_nil_r.
    + split; [by apply publish_listening|].
      rewrite (publish_queue _ _ _ _ _ _ _ Hl).
      rewrite published_in_write
        by (right; exists us; destruct Hm; [by left | right; by exists n]).
      unfold pulled_by; simpl. by rewrite String.eqb_sym.
  - left. destruct Hl as (it & Hit & Hr & He).
    pose proof (handle_subscribe_lookup f c s h it Hit) as Hk.
    destruct (handle_subscribe f c s) as (_ & -> & _).
    split; [by exists it|]. unfold queue_of, pulled_by. rewrite Hk, Hit.
    simpl. by rewrite app_nil_r.
  - left. destruct Hl as (it & Hit & Hr & He).
    unfold handle, bind. rewrite next_outcome. simpl.
    destruct (decide (h' = h)) as [->|Hne].
    + unfold pulled_by, queue_of, listening, PubSub_next. simpl.
      rewrite Hit, Hr. destruct (pushQueue it) as [|p q] eqn:Hq; simpl.
      * rewrite Hit. split; [by exists it | by rewrite Hq].
      * rewrite Nat.eqb_refl, list_lookup_insert_eq
          by (by eapply lookup_lt_Some).
        split; [by eexists | by rewrite app_nil_r].
    + rewrite pulled_by_other by done.
      unfold queue_of, listening. simpl.
      rewrite PubSub_next_other, Hit by done.
      split; [by exists it | by rewrite app_nil_r].
  - destruct Hl as (it & Hit & Hr & He).
    destruct (decide (h' = h)) as [->|Hne].
    + right. split; [done|]. split; [|done]. unfold stopped. simpl.
      unfold PubSub_return. rewrite Hit. simpl.
      rewrite list_lookup_insert_eq by (by eapply lookup_lt_Some).
      by eexists.
    + left.
      assert (Hk : iters (pubsub (final (handle (Return h') s))) !! h
                   = Some it).
      { simpl. by rewrite PubSub_return_other. }
      split; [by exists it|]. unfold queue_of, pulled_by. rewrite Hk, Hit.
      simpl. by rewrite app_nil_r.
Qed.

Lemma pushValue_stopped t p it :
  running it = false → pushQueue it = [] →
  running (pushValue t p it) = false ∧ pushQueue (pushValue t p it) = [].
Proof.
  intros Hr Hq. unfold pushValue, pushes. simpl. by rewrite Hr, Hq.
Qed.

(** A closed iterator receives nothing and yields nothing. *)
Lemma step_stopped r s h :
  stopped h s →
  stopped h (final (handle r s))
  ∧ pulled_by h (mkEntry r (result (handle r s)) (effects (handle r s))) = [].
Proof.
  intros (it & Hit & Hr & Hq). destruct r as [w|f c|h'|h'].
  - destruct (handle_mutate w s) as (-> & -> & ->). split; [|done].
    destruct (resolve_cases w s) as [[e E] | (v & us & n & p & muts & E & Hm)];
      rewrite E; simpl; [by exists it|].
    exists (pushValue (topic_of w) p it). cbn [pubsub].
    rewrite publish_lookup, Hit. split; [done|].
    by apply pushValue_stopped.
  - split; [|done]. exists it.
    split; [|done]. by apply handle_subscribe_lookup.
  - unfold handle, bind. rewrite next_outcome. simpl.
    destruct (decide (h' = h)) as [->|Hne].
    + unfold pulled_by, stopped, PubSub_next. simpl. rewrite Hit, Hr.
      split; [by exists it | done].
    + rewrite pulled_by_other by done. split; [|done].
      exists it. simpl. by rewrite PubSub_next_other.
  - split; [|done]. destruct (decide (h' = h)) as [->|Hne].
    + unfold stopped. simpl. unfold PubSub_return. rewrite Hit. simpl.
      rewrite list_lookup_insert_eq by (by eapply lookup_lt_Some).
      by eexists.
    + exists it. simpl. by rewrite PubSub_return_other.
Qed.

Lemma run_stopped rs s h :
  stopped h s → stopped h (exec rs s) ∧ pulled h (trace rs s) = [].
Proof.
  revert s. induction rs as [|r rs IH]; intros s Hs; [done|].
  rewrite exec_cons, trace_cons. destruct (step_stopped r s h Hs) as [Hs1 Hp].
  destruct (IH _ Hs1) as [Hs' Hp']. split; [done|].
  unfold pulled in *. simpl. by rewrite Hp, Hp'.
Qed.

(** Over any run, an attached iterator is handed exactly the payloads
    published on its trigger, oldest first, until it is closed. *)
Lemma run_listening rs s h t :
  listening h t s →
  (listening h t (exec rs s)
   ∧ queue_of h s ++ published t (trace rs s)
     = pulled h (trace rs s) ++ queue_of h (exec rs s))
  ∨ (Return h ∈ rs ∧ stopped h (exec rs s)
     ∧ pulled h (trace rs s) `prefix_of`
         queue_of h s ++ published t (trace rs s)).
Proof.
  revert s. induction rs as [|r rs IH]; intros s Hl.
  - left. split; [done|]. unfold published, pulled. simpl.
    by rewrite app_nil_r.
  - rewrite exec_cons, trace_cons. unfold published, pulled. simpl.
    fold (published t (trace rs (final (handle r s)))).
    fold (pulled h (trace rs (final (handle r s)))).
    destruct (step_listening r s h t Hl) as [[Hl1 E1] | (-> & Hs1 & E1)].
    + destruct (IH _ Hl1) as [[Hl' E'] | (Hin & Hs' & Hp')].
      * left. split; [done|].
        by rewrite (assoc_L (++)), E1, <- (assoc_L (++)), E', (assoc_L (++)).
      * right. split; [by right|]. split; [done|].
        rewrite (assoc_L (++)), E1, <- (assoc_L (++)).
        by apply prefix_app.
    + right. split; [by left|].
      destruct (run_stopped rs _ h Hs1) as [Hs' Hp'].
      split; [done|]. rewrite Hp'. simpl. apply prefix_nil.
Qed.

Lemma run_attached rs s h t :
  listening h t s → (∀ r, r ∈ rs → r ≠ Return h) →
  listening h t (exec rs s)
  ∧ queue_of h s ++ published t (trace rs s)
    = pulled h (trace rs s) ++ queue_of h (exec rs s).
Proof.
  intros Hl Hn. destruct (run_listening rs s h t Hl) as [H | (Hin & _)];
    [done|]. by destruct (Hn _ Hin).
Qed.

Lemma run_received rs s h t :
  listening h t s →
  pulled h (trace rs s) ++ queue_of h (exec rs s)
  `prefix_of` queue_of h s ++ published t (trace rs s).
Proof.
  intros Hl.
  destruct (run_listening rs s h t Hl) as [[_ E] | (_ & (it & Hit & _ & Hq) & Hp)].
  - by rewrite E.
  - unfold queue_of at 1. by rewrite Hit, Hq, app_nil_r.
Qed.

Lemma resolve_payload w s t p :
  EPublish t p ∈ effects (resolve w s) →
  t = topic_of w ∧ ∃ v, p = {[payload_key w := v]}.
Proof.
  destruct w as [input|id input|id]; cbn [resolve topic_of payload_key].
  - rewrite createUser_outcome. simpl. intros H.
    repeat (apply elem_of_cons in H as [H|H]; [try discriminate|]);
      [|by apply elem_of_nil in H].
    injection H as -> ->. eauto.
  - destruct (Z.eq_dec (findIndex (id_is id) (users s)) (-1)) as [E|E].
    + rewrite updateUser_missing by done. simpl. intros H.
      by apply elem_of_nil in H.
    + destruct (findIndex_some _ _ E) as (old & Hold & _).
      rewrite (updateUser_found id _ s _ old eq_refl E Hold). simpl.
      intros H.
      repeat (apply elem_of_cons in H as [H|H]; [try discriminate|]);
        [|by apply elem_of_nil in H].
      injection H as -> ->. eauto.
  - destruct (Z.eq_dec (findIndex (id_is id) (users s)) (-1)) as [E|E].
    + rewrite deleteUser_missing by done. simpl. intros H.
      by apply elem_of_nil in H.
    + rewrite (deleteUser_found id s _ eq_refl E). simpl. intros H.
      repeat (apply elem_of_cons in H as [H|H]; [try discriminate|]);
        [|by apply elem_of_nil in H].
      injection H as -> ->. eauto.
Qed.

Lemma handle_payload r s t p :
  EPublish t p ∈ effects (handle r s) →
  ∃ w, r = Mutate w ∧ t = topic_of w ∧ ∃ v, p = {[payload_key w := v]}.
Proof.
  destruct r as [w|f c|h|h].
  - destruct (handle_mutate w s) as (_ & -> & _). intros H.
    exists w. split; [done|]. by eapply resolve_payload.
  - destruct (handle_store (Subscribe f c) s) as (_ & _ & ->); [done|].
    intros H. by apply elem_of_nil in H.
  - destruct (handle_store (Next h) s) as (_ & _ & ->); [done|].
    intros H. by apply elem_of_nil in H.
  - destruct (handle_store (Return h) s) as (_ & _ & ->); [done|].
    intros H. by apply elem_of_nil in H.
Qed.

Lemma trace_entry rs s e :
  e ∈ trace rs s →
  ∃ s0, e = mkEntry (e_request e) (result (handle (e_request e) s0))
                    (effects (handle (e_request e) s0)).
Proof.
  revert s. induction rs as [|r rs IH]; intros s.
  - intros H. by apply elem_of_nil in H.
  - rewrite trace_cons. intros H. apply elem_of_cons in H as [-> | H].
    + by exists s.
    + by eapply IH.
Qed.

(** C3, as the code has it: a publish hands the payload on as it is, a
    one-property object with no sequence number; and over any run that does
    not close it, an iterator attached to a trigger is handed every payload
    published on that trigger, in publish order, each exactly once: what was
    queued followed by what was published is what was pulled followed by
    what is still queued. *)
Theorem delivered_in_publish_order rs s h t :
  listening h t s → (∀ r, r ∈ rs → r ≠ Return h) →
  listening h t (exec rs s)
  ∧ queue_of h s ++ published t (trace rs s)
    = pulled h (trace rs s) ++ queue_of h (exec rs s)
  ∧ ∀ e t' p, e ∈ trace rs s → EPublish t' p ∈ e_effects e →
              p !! "sequence" = None.
Proof.
  intros Hl Hn. destruct (run_attached rs s h t Hl Hn) as [Hl' E].
  split; [done|]. split; [done|]. intros e t' p He Hp.
  destruct (trace_entry _ _ _ He) as [s0 Ee]. rewrite Ee in Hp. simpl in Hp.
  destruct (handle_payload _ _ _ _ Hp) as (w & _ & _ & v & ->).
  apply lookup_singleton_ne. by destruct w.
Qed.

Lemma sample_listening : listening 0 "USER_CREATED" sample_server.
Proof. by eexists. Qed.

Lemma delivered_in_publish_order_witness :
  listening 0 "USER_CREATED" (exec sample_run sample_server)
  ∧ queue_of 0 sample_server
      ++ published "USER_CREATED" (trace sample_run sample_server)
    = pulled 0 (trace sample_run sample_server)
      ++ queue_of 0 (exec sample_run sample_server)
  ∧ ∀ e t' p, e ∈ trace sample_run sample_server →
              EPublish t' p ∈ e_effects e → p !! "sequence" = None.
Proof.
  apply (delivered_in_publish_order sample_run sample_server 0
           "USER_CREATED").
  - exact sample_listening.
  - intros r Hr.
    repeat (apply elem_of_cons in Hr as [-> | Hr]; [discriminate|]).
    by apply elem_of_nil in Hr.
Defined.

(** C3 fails as stated: the event a subscriber is handed after a createUser
    is the object [{ userCreated: newUser }] alone; it carries no sequence
    number. *)
Lemma no_sequence_number_counterexample :
  (∃ p, queue_of 0 (final (resolve (CreateUser sample_create) sample_server))
        = [p]
        ∧ p = {["userCreated" :=
                  VObj (created 4 (create_input sample_create))]}
        ∧ p !! "sequence" = None)
  ∧ (∃ p, queue_of 0 (final (resolve (UpdateUser "2" sample_patch)
                                live_server))
          = [p]
          ∧ p !! "sequence" = None).
Proof.
  split.
  - eexists. split; [reflexivity|]. split; reflexivity.
  - eexists. split; reflexivity.
Qed.

Lemma prefix_is_sublist {A} (l k : list A) :
  l `prefix_of` k → l `sublist_of` k.
Proof. intros [m ->]. by apply sublist_inserts_r. Qed.

(** C6: a write changes no set of iterators, so its event reaches only those
    attached when it is published.  A subscription made after the write
    either fails on its context (userCreated with a nullish context, as the
    socket layer passes it) and registers nothing, or creates an iterator
    that was not there at publish time and starts with an empty queue; every
    payload that iterator is handed afterwards is one that a later request
    published on its trigger, in that order; once it is closed it is handed
    nothing more. *)
Theorem no_replay w s f context rs rs' :
  let s1 := final (resolve w s) in
  let o := subscribe f context s1 in
  length (iters (pubsub s1)) = length (iters (pubsub s))
  ∧ (result o = inl destructure_error ↔
     f = UserCreated ∧ nullish context = true)
  ∧ match result o with
    | inl _ => final o = s1
    | inr h =>
        let s2 := final o in
        let s3 := final (handle (Return h) (exec rs s2)) in
        h = length (iters (pubsub s))
        ∧ iters (pubsub s) !! h = None
        ∧ queue_of h s2 = []
        ∧ pulled h (trace rs s2) ++ queue_of h (exec rs s2)
          `sublist_of` published (trigger f) (trace rs s2)
        ∧ pulled h (trace rs' s3) = [] ∧ queue_of h (exec rs' s3) = []
    end.
Proof.
  intros s1 o.
  assert (Hlen : length (iters (pubsub s1)) = length (iters (pubsub s))).
  { subst s1.
    destruct (resolve_cases w s) as [[e E] | (v & us & n & p & muts & E & _)];
      rewrite E; simpl; [done|]. by rewrite length_fmap. }
  split; [done|]. subst o.
  destruct (subscribe_cases f context s1) as [(Hf & Hc & ->) | (Hc & ->)];
    cbn [result final].
  { split; [|done]. by split. }
  split.
  { split; [done|]. intros [Hf Hn]. rewrite (Hc Hf) in Hn. done. }
  set (h := length (iters (pubsub s1))). set (s2 := mkServer _ _ _).
  assert (Hl2 : listening h (trigger f) s2 ∧ queue_of h s2 = []).
  { subst s2 h. unfold listening, queue_of. cbn [pubsub iters].
    rewrite lookup_app_r, Nat.sub_diag by done. simpl.
    split; [by eexists | done]. }
  destruct Hl2 as (Hl2 & Hq2). cbn zeta.
  split; [done|]. split; [apply lookup_ge_None_2; lia|].
  split; [done|]. split.
  { pose proof (run_received rs s2 h _ Hl2) as Hp. rewrite Hq2 in Hp.
    by apply prefix_is_sublist. }
  set (s3 := final (handle (Return h) (exec rs s2))).
  assert (Hs3 : stopped h s3).
  { subst s3.
    destruct (run_listening rs s2 h _ Hl2) as [[Hl _] | (_ & Hs & _)].
    - destruct (step_listening (Return h) _ h _ Hl)
        as [[Hl' _] | (_ & Hs & _)]; [|done].
      exfalso. destruct Hl as (it & Hit & _).
      destruct Hl' as (it' & Hit' & Hr' & _).
      simpl in Hit'. unfold PubSub_return in Hit'. rewrite Hit in Hit'.
      simpl in Hit'.
      rewrite list_lookup_insert_eq in Hit' by (by eapply lookup_lt_Some).
      by injection Hit' as <-.
    - by apply (step_stopped (Return h)). }
  destruct (run_stopped rs' s3 h Hs3) as [(it & Hit & _ & Hq) Hp].
  split; [done|]. unfold queue_of. by rewrite Hit.
Qed.

(** C8: a write leaves every iterator that is not attached to its trigger
    as it was.  In particular a createUser appends its event to the queue of
    an iterator on USER_CREATED and hands nothing to one on USER_DELETED. *)
Theorem topic_isolation w s input a b itA itB :
  (∀ h it, iters (pubsub s) !! h = Some it → topic_of w ∉ eventsArray it →
           iters (pubsub (final (resolve w s))) !! h = Some it)
  ∧ (iters (pubsub s) !! a = Some itA → running itA = true →
     eventsArray itA = ["USER_CREATED"] →
     iters (pubsub s) !! b = Some itB → eventsArray itB = ["USER_DELETED"] →
     let o := resolve (CreateUser input) s in
     let newUser := created (nextUserId s) (create_input input) in
     result o = inr (VObj newUser)
     ∧ queue_of a (final o)
       = pushQueue itA ++ [{["userCreated" := VObj newUser]}]
     ∧ iters (pubsub (final o)) !! b = Some itB).
Proof.
  split.
  - intros h it Hit Hn.
    destruct (resolve_cases w s) as [[e E] | (v & us & n & p & muts & E & _)];
      rewrite E; cbn [final pubsub]; [done|].
    rewrite publish_lookup, Hit. simpl. by rewrite pushValue_other.
  - intros Ha Hra Hea Hb Heb o newUser. subst o.
    cbn [resolve]. rewrite createUser_outcome. cbn [result final pubsub].
    split; [done|]. split.
    + unfold queue_of. cbn [pubsub]. rewrite publish_lookup, Ha. simpl.
      by rewrite (pushes_single _ "USER_CREATED").
    + rewrite publish_lookup, Hb. simpl. rewrite pushValue_other; [done|].
      rewrite Heb. intros H. apply list_elem_of_singleton in H. discriminate.
Qed.

Lemma topic_isolation_witness :
  iters (pubsub (final (resolve (UpdateUser "2" sample_patch)
                          sample_server))) !! 2%nat
  = Some (mkIter ["USER_DELETED"] [] true)
  ∧ (let o := resolve (CreateUser sample_create) sample_server in
     let newUser := created 4 (create_input sample_create) in
     result o = inr (VObj newUser)
     ∧ queue_of 0 (final o) = [] ++ [{["userCreated" := VObj newUser]}]
     ∧ iters (pubsub (final o)) !! 2%nat
       = Some (mkIter ["USER_DELETED"] [] true)).
Proof.
  split.
  - apply (proj1 (topic_isolation (UpdateUser "2" sample_patch)
                    sample_server sample_create 0 2
                    (mkIter ["USER_CREATED"] [] true)
                    (mkIter ["USER_DELETED"] [] true))); [reflexivity|].
    simpl. intros H. apply list_elem_of_singleton in H. discriminate.
  - apply (proj2 (topic_isolation (CreateUser sample_create) sample_server
                    sample_create 0 2
                    (mkIter ["USER_CREATED"] [] true)
                    (mkIter ["USER_DELETED"] [] true))); reflexivity.
Defined.

(** ** Undrained subscribers *)

Lemma pulled_none rs s h :
  (∀ r, r ∈ rs → r ≠ Next h) → pulled h (trace rs s) = [].
Proof.
  revert s. induction rs as [|r rs IH]; intros s Hn; [done|].
  rewrite trace_cons. unfold pulled. simpl.
  fold (pulled h (trace rs (final (handle r s)))).
  rewrite IH by (intros r' Hr'; apply Hn; by right).
  rewrite app_nil_r. destruct r as [w|f c|h'|h']; try done.
  apply pulled_by_other. intros ->. apply (Hn (Next h)); [by left | done].
Qed.

Lemma run_undrained rs s h t :
  listening h t s → (∀ r, r ∈ rs → r ≠ Return h ∧ r ≠ Next h) →
  listening h t (exec rs s)
  ∧ queue_of h (exec rs s) = queue_of h s ++ published t (trace rs s).
Proof.
  intros Hl Hn.
  destruct (run_attached rs s h t Hl) as [Hl' E];
    [intros r Hr; by destruct (Hn r Hr)|].
  split; [done|]. rewrite E, pulled_none; [done|].
  intros r Hr. by destruct (Hn r Hr).
Qed.

(** What a mutation returns and does to the store does not depend on the
    bus. *)
Lemma resolve_bus_independent w us n ps1 ps2 :
  let o1 := resolve w (mkServer us n ps1) in
  let o2 := resolve w (mkServer us n ps2) in
  result o1 = result o2 ∧ effects o1 = effects o2
  ∧ users (final o1) = users (final o2)
  ∧ nextUserId (final o1) = nextUserId (final o2).
Proof.
  destruct w as [input|id input|id]; cbn [resolve].
  - by rewrite !createUser_outcome.
  - destruct (Z.eq_dec (findIndex (id_is id) us) (-1)) as [E|E].
    + by rewrite !updateUser_missing.
    + destruct (findIndex_some _ _ E) as (old & Hold & _).
      by rewrite (updateUser_found id _ (mkServer us n ps1) _ old eq_refl E Hold),
        (updateUser_found id _ (mkServer us n ps2) _ old eq_refl E Hold).
  - destruct (Z.eq_dec (findIndex (id_is id) us) (-1)) as [E|E].
    + by rewrite !deleteUser_missing.
    + by rewrite (deleteUser_found id (mkServer us n ps1) _ eq_refl E),
        (deleteUser_found id (mkServer us n ps2) _ eq_refl E).
Qed.

Lemma burst_published n s :
  length (published "USER_CREATED" (trace (burst n) s)) = n.
Proof.
  revert s. induction n as [|n IH]; intros s; [done|].
  change (burst (S n)) with (Mutate (CreateUser sample_create) :: burst n).
  rewrite trace_cons, published_cons, length_app, IH. cbn [e_effects].
  destruct (handle_mutate (CreateUser sample_create) s) as (_ & -> & _).
  cbn [resolve]. by rewrite createUser_outcome.
Qed.

Lemma burst_undrained n s h :
  listening h "USER_CREATED" s →
  listening h "USER_CREATED" (exec (burst n) s)
  ∧ length (queue_of h (exec (burst n) s)) = (length (queue_of h s) + n)%nat.
Proof.
  intros Hl.
  destruct (run_undrained (burst n) s h _ Hl) as [Hl' E].
  { intros r Hr. apply elem_of_replicate in Hr as [-> _]. done. }
  split; [done|]. by rewrite E, length_app, burst_published.
Qed.

(** C4, as the code has it: a publish is a plain append to the queue of each
    attached iterator.  It does not look at the length of any queue, so over
    any run an iterator that is never pulled from and never closed stays
    attached and accumulates every payload published on its trigger; and the
    result of a mutation, its effects and the store it leaves are the same
    whatever the iterators of the bus hold. *)
Theorem publish_never_waits rs s h t w us n ps1 ps2 :
  listening h t s → (∀ r, r ∈ rs → r ≠ Return h ∧ r ≠ Next h) →
  (listening h t (exec rs s)
   ∧ queue_of h (exec rs s) = queue_of h s ++ published t (trace rs s))
  ∧ (result (resolve w (mkServer us n ps1))
     = result (resolve w (mkServer us n ps2))
     ∧ effects (resolve w (mkServer us n ps1))
       = effects (resolve w (mkServer us n ps2))
     ∧ users (final (resolve w (mkServer us n ps1)))
       = users (final (resolve w (mkServer us n ps2)))
     ∧ nextUserId (final (resolve w (mkServer us n ps1)))
       = nextUserId (final (resolve w (mkServer us n ps2)))).
Proof.
  intros Hl Hn. split; [by apply run_undrained|].
  apply resolve_bus_independent.
Qed.

Lemma publish_never_waits_witness :
  (listening 0 "USER_CREATED" (exec (burst 3) sample_server)
   ∧ queue_of 0 (exec (burst 3) sample_server)
     = queue_of 0 sample_server
       ++ published "USER_CREATED" (trace (burst 3) sample_server))
  ∧ (result (resolve (DeleteUser "2") sample_server)
     = result (resolve (DeleteUser "2") initial)
     ∧ effects (resolve (DeleteUser "2") sample_server)
       = effects (resolve (DeleteUser "2") initial)
     ∧ users (final (resolve (DeleteUser "2") sample_server))
       = users (final (resolve (DeleteUser "2") initial))
     ∧ nextUserId (final (resolve (DeleteUser "2") sample_server))
       = nextUserId (final (resolve (DeleteUser "2") initial))).
Proof.
  apply (publish_never_waits (burst 3) sample_server 0 "USER_CREATED"
           (DeleteUser "2") (users initial) 4 (pubsub sample_server)
           (pubsub initial)).
  - exact sample_listening.
  - intros r Hr. apply elem_of_replicate in Hr as [-> _]. done.
Defined.

Lemma present_ids id us : present id us ↔ Some (VStr id) ∈ ids us.
Proof.
  unfold present, ids. rewrite list_elem_of_fmap. split.
  - intros (u & Hu & Hid). by exists u.
  - intros (u & Hid & Hu). by exists u.
Qed.

Lemma update_ids id input s :
  ids (users (final (resolve (UpdateUser id input) s))) = ids (users s).
Proof.
  cbn [resolve].
  destruct (Z.eq_dec (findIndex (id_is id) (users s)) (-1)) as [E|E].
  - by rewrite updateUser_missing.
  - destruct (findIndex_some _ _ E) as (old & Hold & _).
    rewrite (updateUser_found id _ s _ old eq_refl E Hold).
    cbn [final users]. unfold ids. rewrite list_fmap_insert.
    unfold spread2. rewrite lookup_union_r by apply update_input_id.
    apply list_insert_id. by rewrite list_lookup_fmap, Hold.
Qed.

Lemma update_burst_published n s :
  findIndex (id_is "2") (users s) ≠ -1 →
  length (published "USER_UPDATED" (trace (update_burst n) s)) = n.
Proof.
  revert s. induction n as [|n IH]; intros s E; [done|].
  change (update_burst (S n))
    with (Mutate (UpdateUser "2" sample_patch) :: update_burst n).
  rewrite trace_cons, published_cons, length_app. cbn [e_effects].
  destruct (handle_mutate (UpdateUser "2" sample_patch) s) as (-> & -> & _).
  rewrite IH.
  - cbn [resolve]. destruct (findIndex_some _ _ E) as (old & Hold & _).
    by rewrite (updateUser_found "2" _ s _ old eq_refl E Hold).
  - apply findIndex_present, present_ids. rewrite update_ids.
    by apply present_ids, findIndex_present.
Qed.

Lemma update_burst_undrained n s h :
  findIndex (id_is "2") (users s) ≠ -1 →
  listening h "USER_UPDATED" s →
  listening h "USER_UPDATED" (exec (update_burst n) s)
  ∧ length (queue_of h (exec (update_burst n) s))
    = (length (queue_of h s) + n)%nat.
Proof.
  intros E Hl.
  destruct (run_undrained (update_burst n) s h _ Hl) as [Hl' Eq].
  { intros r Hr. apply elem_of_replicate in Hr as [-> _]. done. }
  split; [done|]. by rewrite Eq, length_app, update_burst_published.
Qed.

Lemma live_listening : listening 0 "USER_UPDATED" live_server.
Proof. by eexists. Qed.

(** C4 fails as stated: a subscriber that never drains its queue is still
    attached after a thousand publishes and holds all thousand events; no
    number bounds the length of its queue.  So it is on the server as it is
    configured, for a subscriber to userUpdated. *)
Lemma unbounded_queue_counterexample :
  ((listening 0 "USER_CREATED" (exec (burst 1000) sample_server)
    ∧ length (queue_of 0 (exec (burst 1000) sample_server)) = 1000%nat)
   ∧ ¬ ∃ bound : nat, ∀ n,
         (length (queue_of 0 (exec (burst n) sample_server)) ≤ bound)%nat)
  ∧ ((listening 0 "USER_UPDATED" (exec (update_burst 1000) live_server)
      ∧ length (queue_of 0 (exec (update_burst 1000) live_server))
        = 1000%nat)
     ∧ ¬ ∃ bound : nat, ∀ n,
           (length (queue_of 0 (exec (update_burst n) live_server))
            ≤ bound)%nat).
Proof.
  assert (E : findIndex (id_is "2") (users live_server) ≠ -1) by done.
  split; split.
  - apply (burst_undrained 1000 sample_server 0 sample_listening).
  - intros [bound Hb]. specialize (Hb (S bound)).
    destruct (burst_undrained (S bound) sample_server 0 sample_listening)
      as [_ Eq].
    rewrite Eq in Hb. simpl in Hb. lia.
  - apply (update_burst_undrained 1000 live_server 0 E live_listening).
  - intros [bound Hb]. specialize (Hb (S bound)).
    destruct (update_burst_undrained (S bound) live_server 0 E live_listening)
      as [_ Eq].
    rewrite Eq in Hb. simpl in Hb. lia.
Qed.

(** ** The client split *)

(** C5, as the code has it: the split is a function of the main definition's
    kind and operation alone, with two outcomes.  Where the specification's
    classifier accepts the definition, the split sends the operation over the
    transport of its kind, the same for a query and a mutation.  A definition
    of any other kind is not rejected: it goes to the HTTP link.  The split
    fails only when [getMainDefinition] throws, and then with that error. *)
Theorem splitLink_routes (DocumentNode : Type)
  (getMainDefinition : DocumentNode → error + Client.DefinitionNode)
  (query : DocumentNode) :
  match getMainDefinition query with
  | inl e => Client.splitLink DocumentNode getMainDefinition query = inl e
  | inr d =>
      match Client.spec_classify d with
      | inr k =>
          Client.splitLink DocumentNode getMainDefinition query
          = inr (Client.spec_transport k)
      | inl _ =>
          Client.splitLink DocumentNode getMainDefinition query
          = inr Client.httpLink
      end
  end.
Proof.
  unfold Client.splitLink, Client.split, Client.test, Client.spec_classify.
  destruct (getMainDefinition query) as [e|[k [op|]]]; [done|..]; simpl.
  - destruct (String.eqb k "OperationDefinition"); [|done]. simpl.
    destruct (String.eqb_spec op "query") as [->|]; [done|].
    destruct (String.eqb_spec op "mutation") as [->|]; [done|].
    by destruct (String.eqb_spec op "subscription").
  - destruct (String.eqb k "OperationDefinition"); by rewrite ?andb_false_r.
Qed.

(** C5 fails as stated: a document whose main definition is a fragment has
    none of the three kinds, and the specification's classifier rejects it
    as malformed; the split routes it to the HTTP link. *)
Lemma malformed_is_routed_counterexample :
  Client.spec_route Client.fragment_only = inl Client.MalformedOperation
  ∧ Client.splitLink Client.DefinitionNode Client.own_definition
      Client.fragment_only
    = inr Client.httpLink.
Proof. split; reflexivity. Qed.

(** * Further properties of the resolvers *)

(** ** Looking a user up *)

Lemma find_findIndex (p : obj → bool) (arr : list obj) :
  List.find p arr =
  if findIndex p arr =? -1 then None
  else arr !! Z.to_nat (findIndex p arr).
Proof.
  induction arr as [|x rest IH]; simpl; [done|].
  destruct (p x); [done|]. rewrite IH.
  pose proof (findIndex_range p rest) as [E|Hr].
  - by rewrite E.
  - destruct (Z.eqb_spec (findIndex p rest) (-1)) as [E|E]; [lia|].
    destruct (Z.eqb_spec (findIndex p rest + 1) (-1)) as [E'|E']; [lia|].
    by replace (Z.to_nat (findIndex p rest + 1))
      with (S (Z.to_nat (findIndex p rest))) by lia.
Qed.

Lemma user_missing id s :
  findIndex (id_is id) (users s) = -1 →
  Query.user id s = Outcome (inl (not_found id)) s [].
Proof.
  intros E. unfold Query.user, bind, array_find. simpl.
  by rewrite find_findIndex, E.
Qed.

Lemma user_found id s u :
  findIndex (id_is id) (users s) ≠ -1 →
  users s !! Z.to_nat (findIndex (id_is id) (users s)) = Some u →
  Query.user id s = Outcome (inr (VObj u)) s [].
Proof.
  intros E Hu. unfold Query.user, bind, array_find. simpl.
  rewrite find_findIndex.
  destruct (Z.eqb_spec (findIndex (id_is id) (users s)) (-1)); [done|].
  by rewrite Hu.
Qed.

(** X1: the user query is read-only.  On an id that no user carries it
    throws the not-found error; on an id that some user carries it returns
    the first user of the array with that id. *)
Theorem user_lookup id s :
  (¬ present id (users s) →
     Query.user id s = Outcome (inl (not_found id)) s [])
  ∧ (present id (users s) →
     ∃ u, Query.user id s = Outcome (inr (VObj u)) s []
          ∧ users s !! Z.to_nat (findIndex (id_is id) (users s)) = Some u
          ∧ u !! "id" = Some (VStr id)
          ∧ ∀ j y, (j < Z.to_nat (findIndex (id_is id) (users s)))%nat →
                   users s !! j = Some y → y !! "id" ≠ Some (VStr id)).
Proof.
  split; intros H.
  - apply user_missing.
    destruct (Z.eq_dec (findIndex (id_is id) (users s)) (-1)); [done|].
    exfalso. by apply H, findIndex_present.
  - apply findIndex_present in H.
    destruct (findIndex_some _ _ H) as (u & Hu & Hp & Hmin).
    exists u. split; [by apply user_found|]. split; [done|].
    split; [by apply id_is_true|].
    intros j y Hj Hy Hid. apply id_is_true in Hid.
    specialize (Hmin j y Hj Hy). congruence.
Qed.

Lemma user_lookup_witness :
  Query.user "7" initial
  = Outcome (inl (Error "User with ID 7 not found")) initial []
  ∧ ∃ u, Query.user "2" initial = Outcome (inr (VObj u)) initial []
         ∧ users initial !! 1%nat = Some u
         ∧ u !! "id" = Some (VStr "2")
         ∧ ∀ j y, (j < 1)%nat → users initial !! j = Some y →
                  y !! "id" ≠ Some (VStr "2").
Proof.
  split.
  - apply (proj1 (user_lookup "7" initial)). exact absent_7.
  - apply (proj2 (user_lookup "2" initial)). exact present_2.
Defined.

Lemma findIndex_app_last (p : obj → bool) (l : list obj) (u : obj) :
  (∀ x, x ∈ l → p x = false) → p u = true →
  findIndex p (l ++ [u]) = Z.of_nat (length l).
Proof.
  intros Hl Hu. induction l as [|x l IH]; simpl; [by rewrite Hu|].
  rewrite (Hl x) by left. rewrite IH by (intros y Hy; apply Hl; by right).
  destruct (Z.eqb_spec (Z.of_nat (length l)) (-1)); lia.
Qed.

(** X2: in every state the server reaches from start-up, a user just
    created is found again under the id it was given: the user query
    returns the very record createUser returned, and the users query lists
    it last, after the users that were there. *)
Theorem created_user_is_found (rs : list request) input :
  let s := exec rs initial in
  let o := resolve (CreateUser input) s in
  ∃ u, result o = inr (VObj u)
       ∧ u !! "id" = Some (VStr (pretty (nextUserId s)))
       ∧ Query.user (pretty (nextUserId s)) (final o)
         = Outcome (inr (VObj u)) (final o) []
       ∧ Query.users (final o) = Outcome (inr (users s ++ [u])) (final o) [].
Proof.
  intros s o.
  assert (Hs : store_ok s) by apply exec_store_ok, initial_store_ok.
  exists (created (nextUserId s) (create_input input)). subst o.
  cbn [resolve]. rewrite createUser_outcome. cbn [result final].
  pose proof (created_id (nextUserId s) _ (create_input_id input)) as Hid.
  split; [done|]. split; [done|]. split; [|done].
  assert (E : findIndex (id_is (pretty (nextUserId s)))
                (users s ++ [created (nextUserId s) (create_input input)])
              = Z.of_nat (length (users s))).
  { apply findIndex_app_last; [|by apply id_is_true].
    intros x Hx. destruct (id_is _ x) eqn:Ex; [|done].
    apply id_is_true in Ex. exfalso. apply (fresh_id s Hs).
    rewrite <- Ex. unfold ids. by apply (list_elem_of_fmap_2 (λ u : obj, u !! "id")). }
  apply user_found; cbn [users]; rewrite E; [lia|].
  rewrite Nat2Z.id. by rewrite lookup_app_r, Nat.sub_diag.
Qed.

Lemma findIndex_insert_same (p : obj → bool) (l : list obj) i (x y : obj) :
  l !! i = Some y → p x = p y → findIndex p (<[i:=x]> l) = findIndex p l.
Proof.
  revert i. induction l as [|z l IH]; intros [|i] Hy Hp; simpl in *;
    try done.
  - injection Hy as ->. by rewrite Hp.
  - by rewrite (IH i).
Qed.

Lemma id_is_patched id (old : obj) input :
  id_is id (spread2 old (update_input input)) = id_is id old.
Proof.
  unfold id_is, spread2. by rewrite lookup_union_r by apply update_input_id.
Qed.

(** X4: after updateUser on an id that some user carries, the user query on
    that id returns the record updateUser returned. *)
Theorem updated_user_is_found id input s :
  present id (users s) →
  let o := resolve (UpdateUser id input) s in
  ∃ u, result o = inr (VObj u)
       ∧ Query.user id (final o) = Outcome (inr (VObj u)) (final o) [].
Proof.
  intros H o. apply findIndex_present in H.
  destruct (findIndex_some _ _ H) as (old & Hold & _).
  pose proof (findIndex_range (id_is id) (users s)) as [?|Hr]; [done|].
  subst o. cbn [resolve].
  rewrite (updateUser_found id _ s _ old eq_refl H Hold). cbn [result final].
  eexists. split; [reflexivity|].
  assert (E : findIndex (id_is id)
                (<[Z.to_nat (findIndex (id_is id) (users s))
                   := spread2 old (update_input input)]> (users s))
              = findIndex (id_is id) (users s)).
  { apply (findIndex_insert_same _ _ _ _ old); [done|].
    apply id_is_patched. }
  apply user_found; cbn [users]; rewrite E; [done|].
  apply list_lookup_insert_eq. lia.
Qed.

Lemma updated_user_is_found_witness :
  ∃ u, result (resolve (UpdateUser "2" sample_patch) initial) = inr (VObj u)
       ∧ Query.user "2" (final (resolve (UpdateUser "2" sample_patch)
                                  initial))
         = Outcome (inr (VObj u))
             (final (resolve (UpdateUser "2" sample_patch) initial)) [].
Proof.
  exact (updated_user_is_found "2" sample_patch initial present_2).
Defined.

(** ** Repeating and removing *)

Lemma spread2_twice (old input : obj) :
  spread2 (spread2 old input) input = spread2 old input.
Proof.
  unfold spread2. apply map_eq. intros k. rewrite !lookup_union.
  by destruct (input !! k), (old !! k).
Qed.

(** X5: updateUser with the same id and patch a second time returns the
    same result and leaves the array as the first call left it; the second
    call still publishes its event. *)
Theorem update_twice id input s :
  let o1 := resolve (UpdateUser id input) s in
  let o2 := resolve (UpdateUser id input) (final o1) in
  result o2 = result o1
  ∧ users (final o2) = users (final o1)
  ∧ effects o2 = effects o1.
Proof.
  intros o1 o2. subst o1 o2. cbn [resolve].
  destruct (Z.eq_dec (findIndex (id_is id) (users s)) (-1)) as [E|E].
  - rewrite (updateUser_missing _ _ s E). cbn [final].
    by rewrite (updateUser_missing _ _ s E).
  - destruct (findIndex_some _ _ E) as (old & Hold & _).
    pose proof (findIndex_range (id_is id) (users s)) as [?|Hr]; [done|].
    rewrite (updateUser_found id _ s _ old eq_refl E Hold).
    cbn [result final effects users].
    set (i := Z.to_nat (findIndex (id_is id) (users s))) in *.
    set (new := spread2 old (update_input input)).
    set (s1 := mkServer _ _ _).
    assert (E1 : findIndex (id_is id) (users s1)
                 = findIndex (id_is id) (users s)).
    { apply (findIndex_insert_same _ _ _ _ old); [done|].
      apply id_is_patched. }
    assert (H1 : users s1 !! Z.to_nat (findIndex (id_is id) (users s1))
                 = Some new).
    { rewrite E1. apply list_lookup_insert_eq. lia. }
    rewrite (updateUser_found id _ s1 _ new eq_refl ltac:(by rewrite E1) H1).
    cbn [result final effects users]. rewrite E1. fold i.
    unfold new. rewrite spread2_twice.
    subst s1. cbn [users]. by rewrite list_insert_insert_eq.
Qed.

(** X6: a successful deleteUser removes the first user of the array that
    carries the id and nothing else: the users before it and after it stay,
    in their order, and the counter is untouched. *)
Theorem deleteUser_frame id s v :
  result (resolve (DeleteUser id) s) = inr v →
  ∃ before u after,
    users s = before ++ u :: after
    ∧ u !! "id" = Some (VStr id)
    ∧ (∀ x, x ∈ before → x !! "id" ≠ Some (VStr id))
    ∧ users (final (resolve (DeleteUser id) s)) = before ++ after
    ∧ nextUserId (final (resolve (DeleteUser id) s)) = nextUserId s.
Proof.
  cbn [resolve].
  destruct (Z.eq_dec (findIndex (id_is id) (users s)) (-1)) as [E|E].
  { by rewrite deleteUser_missing. }
  intros _. rewrite (deleteUser_found id s _ eq_refl E). cbn [final users].
  destruct (findIndex_some _ _ E) as (u & Hu & Hp & Hmin).
  set (i := Z.to_nat (findIndex (id_is id) (users s))) in *.
  exists (take i (users s)), u, (drop (S i) (users s)).
  split; [by rewrite take_drop_middle|]. split; [by apply id_is_true|].
  split; [|by rewrite delete_take_drop].
  intros x Hx Hid. apply id_is_true in Hid.
  apply list_elem_of_lookup in Hx as [j Hj].
  pose proof (lookup_lt_Some _ _ _ Hj) as Hlt. rewrite length_take in Hlt.
  rewrite lookup_take_lt in Hj by lia.
  specialize (Hmin j x ltac:(lia) Hj). congruence.
Qed.

Lemma deleteUser_frame_witness :
  ∃ before u after,
    users initial = before ++ u :: after
    ∧ u !! "id" = Some (VStr "2")
    ∧ (∀ x, x ∈ before → x !! "id" ≠ Some (VStr "2"))
    ∧ users (final (resolve (DeleteUser "2") initial)) = before ++ after
    ∧ nextUserId (final (resolve (DeleteUser "2") initial))
      = nextUserId initial.
Proof.
  apply (deleteUser_frame "2" initial (VBool true)). reflexivity.
Defined.

(** ** Ids over a run *)

Lemma resolve_ids w s o :
  o ∈ ids (users (final (resolve w s))) →
  o ∈ ids (users s) ∨ o = Some (VStr (pretty (nextUserId s))).
Proof.
  destruct w as [input|id input|id]; cbn [resolve].
  - rewrite createUser_outcome. cbn [final users]. unfold ids at 1.
    rewrite fmap_app. simpl. rewrite created_id by apply create_input_id.
    intros [H|H]%elem_of_app; [by left|].
    apply list_elem_of_singleton in H. by right.
  - destruct (Z.eq_dec (findIndex (id_is id) (users s)) (-1)) as [E|E].
    + rewrite updateUser_missing by done. by left.
    + destruct (findIndex_some _ _ E) as (old & Hold & _).
      rewrite (updateUser_found id _ s _ old eq_refl E Hold).
      cbn [final users]. unfold ids at 1. rewrite list_fmap_insert.
      unfold spread2. rewrite lookup_union_r by apply update_input_id.
      rewrite list_insert_id; [by left|]. by rewrite list_lookup_fmap, Hold.
  - destruct (Z.eq_dec (findIndex (id_is id) (users s)) (-1)) as [E|E].
    + rewrite deleteUser_missing by done. by left.
    + rewrite (deleteUser_found id s _ eq_refl E). cbn [final users].
      unfold ids at 1. rewrite list_fmap_delete. intros H. left.
      eapply elem_of_sublist; [exact H | apply sublist_delete].
Qed.

Lemma handle_ids r s o :
  o ∈ ids (users (final (handle r s))) →
  o ∈ ids (users s) ∨ o = Some (VStr (pretty (nextUserId s))).
Proof.
  destruct r as [w|f c|h|h].
  - destruct (handle_mutate w s) as (-> & _). apply resolve_ids.
  - destruct (handle_store (Subscribe f c) s) as (-> & _); [done|]. by left.
  - destruct (handle_store (Next h) s) as (-> & _); [done|]. by left.
  - destruct (handle_store (Return h) s) as (-> & _); [done|]. by left.
Qed.

(** An id below the counter that no user carries is never given again. *)
Lemma exec_gone rs s (k : N) :
  (k < nextUserId s)%N → Some (VStr (pretty k)) ∉ ids (users s) →
  Some (VStr (pretty k)) ∉ ids (users (exec rs s)).
Proof.
  revert s. induction rs as [|r rs IH]; intros s Hk Hn; [done|].
  rewrite exec_cons. apply IH.
  - eapply N.lt_le_trans; [exact Hk|]. apply (exec_counter [r] s).
  - intros [H|H]%handle_ids; [done|].
    assert (pretty k = pretty (nextUserId s)) as E by congruence.
    apply (inj pretty) in E. lia.
Qed.

Lemma NoDup_delete_lookup {A} (l : list A) i x :
  NoDup l → l !! i = Some x → x ∉ delete i l.
Proof.
  intros Hnd Hx. rewrite <- (take_drop_middle l i x Hx) in Hnd.
  rewrite delete_take_drop. apply NoDup_app in Hnd as (_ & Hd & Hnd).
  apply NoDup_cons in Hnd as [Hx2 _].
  intros [H|H]%elem_of_app; [|done].
  apply (Hd x H). by left.
Qed.

(** X3: in every state the server reaches from start-up, deletion is final.
    Once deleteUser has succeeded on an id, whatever requests follow, no
    user carries that id again: the user query, updateUser and deleteUser on
    it all throw the not-found error. *)
Theorem deleted_stays_gone (rs rs' : list request) id input v :
  let s := exec rs initial in
  result (resolve (DeleteUser id) s) = inr v →
  let s' := exec rs' (final (resolve (DeleteUser id) s)) in
  ¬ present id (users s')
  ∧ Query.user id s' = Outcome (inl (not_found id)) s' []
  ∧ resolve (UpdateUser id input) s' = Outcome (inl (not_found id)) s' []
  ∧ resolve (DeleteUser id) s' = Outcome (inl (not_found id)) s' [].
Proof.
  intros s Hv s'.
  assert (Hs : store_ok s) by apply exec_store_ok, initial_store_ok.
  destruct Hs as [Hnd Hb]. revert Hv. cbn [resolve].
  destruct (Z.eq_dec (findIndex (id_is id) (users s)) (-1)) as [E|E].
  { by rewrite deleteUser_missing. }
  intros _. assert (Hgone : ¬ present id (users s')).
  { destruct (findIndex_some _ _ E) as (u & Hu & Hp & _).
    apply id_is_true in Hp.
    assert (Hi : ids (users s) !! Z.to_nat (findIndex (id_is id) (users s))
                 = Some (Some (VStr id))).
    { unfold ids. by rewrite list_lookup_fmap, Hu, <- Hp. }
    rewrite Forall_forall in Hb.
    destruct (Hb _ (list_elem_of_lookup_2 _ _ _ Hi)) as (k & Hk & Ek).
    injection Ek as ->. rewrite present_ids. subst s'. cbn [resolve].
    rewrite (deleteUser_found (pretty k) s _ eq_refl E).
    apply exec_gone; cbn [final users nextUserId]; [done|].
    unfold ids. rewrite list_fmap_delete. by apply NoDup_delete_lookup. }
  assert (E' : findIndex (id_is id) (users s') = -1).
  { destruct (Z.eq_dec (findIndex (id_is id) (users s')) (-1)); [done|].
    exfalso. by apply Hgone, findIndex_present. }
  split; [done|]. split; [by apply user_missing|].
  split; [by apply updateUser_missing | by apply deleteUser_missing].
Qed.

Lemma deleted_stays_gone_witness :
  let s' := exec sample_run (final (resolve (DeleteUser "2") initial)) in
  ¬ present "2" (users s')
  ∧ Query.user "2" s' = Outcome (inl (not_found "2")) s' []
  ∧ resolve (UpdateUser "2" sample_patch) s'
    = Outcome (inl (not_found "2")) s' []
  ∧ resolve (DeleteUser "2") s' = Outcome (inl (not_found "2")) s' [].
Proof.
  apply (deleted_stays_gone [] sample_run "2" sample_patch (VBool true)).
  reflexivity.
Defined.

Lemma StronglySorted_delete {A} (R : relation A) (l : list A) i :
  StronglySorted R l → StronglySorted R (delete i l).
Proof.
  intros H. revert i. induction H as [|x l Hl IH Hx]; intros [|i]; simpl;
    try done; [constructor..|].
  constructor; [apply IH | by apply Forall_delete].
Qed.

Lemma resolve_ordered w s : ordered s → ordered (final (resolve w s)).
Proof.
  intros (ks & Hks & Hsort & Hb).
  destruct w as [input|id input|id]; cbn [resolve].
  - rewrite createUser_outcome. cbn [final]. exists (ks ++ [nextUserId s]).
    cbn [users nextUserId]. unfold ids, numbered in *.
    rewrite !fmap_app, Hks. simpl.
    rewrite created_id by apply create_input_id. split; [done|]. split.
    + apply StronglySorted_app_2; [|done|repeat constructor].
      intros k1 k2 H1 H2. apply list_elem_of_singleton in H2 as ->.
      rewrite Forall_forall in Hb. by apply Hb.
    + apply Forall_app. split.
      * eapply Forall_impl; [exact Hb|]. simpl. lia.
      * repeat constructor. lia.
  - destruct (Z.eq_dec (findIndex (id_is id) (users s)) (-1)) as [E|E].
    + rewrite updateUser_missing by done. by exists ks.
    + destruct (findIndex_some _ _ E) as (old & Hold & _).
      rewrite (updateUser_found id _ s _ old eq_refl E Hold).
      exists ks. cbn [final users nextUserId]. split; [|done].
      rewrite <- Hks. unfold ids. rewrite list_fmap_insert.
      unfold spread2. rewrite lookup_union_r by apply update_input_id.
      apply list_insert_id. by rewrite list_lookup_fmap, Hold.
  - destruct (Z.eq_dec (findIndex (id_is id) (users s)) (-1)) as [E|E].
    + rewrite deleteUser_missing by done. by exists ks.
    + rewrite (deleteUser_found id s _ eq_refl E).
      exists (delete (Z.to_nat (findIndex (id_is id) (users s))) ks).
      cbn [final users nextUserId]. split; [|split].
      * unfold ids in *. rewrite list_fmap_delete, Hks. unfold numbered.
        by rewrite list_fmap_delete.
      * by apply StronglySorted_delete.
      * by apply Forall_delete.
Qed.

Lemma exec_ordered rs s : ordered s → ordered (exec rs s).
Proof.
  revert s. induction rs as [|r rs IH]; intros s Hs; [done|].
  rewrite exec_cons. apply IH. destruct r as [w|f c|h|h].
  - destruct (handle_mutate w s) as (-> & _). by apply resolve_ordered.
  - destruct (handle_store (Subscribe f c) s) as (Hu & Hn & _); [done|].
    unfold ordered. by rewrite Hu, Hn.
  - destruct (handle_store (Next h) s) as (Hu & Hn & _); [done|].
    unfold ordered. by rewrite Hu, Hn.
  - destruct (handle_store (Return h) s) as (Hu & Hn & _); [done|].
    unfold ordered. by rewrite Hu, Hn.
Qed.

(** X7: in every state the server reaches from start-up, the users query
    lists the users in the order they were created: their ids are the decimal
    forms of strictly increasing numbers, all below the counter. *)
Theorem users_in_creation_order (rs : list request) :
  let s := exec rs initial in
  ∃ ks, Query.users s = Outcome (inr (users s)) s []
        ∧ ids (users s) = numbered ks
        ∧ StronglySorted N.lt ks
        ∧ Forall (λ k, (k < nextUserId s)%N) ks.
Proof.
  intros s.
  assert (H0 : ordered initial).
  { exists [1; 2; 3]%N. split; [done|]. split.
    - repeat constructor.
    - by repeat constructor. }
  destruct (exec_ordered rs initial H0) as (ks & Hks & Hsort & Hb).
  by exists ks.
Qed.

(** ** Users of a department *)

Lemma filter_throwing_ok (p : obj → error + bool) (arr : list obj) :
  Forall (λ x, ∃ b, p x = inr b) arr →
  ∃ kept, filter_throwing p arr = inr kept
          ∧ kept `sublist_of` arr
          ∧ ∀ u, u ∈ kept ↔ u ∈ arr ∧ p u = inr true.
Proof.
  induction 1 as [|x arr [b Hb] _ (kept & E & Hsub & Hin)]; simpl.
  - exists []. split; [done|]. split; [done|]. intros u. split.
    + intros H. by apply elem_of_nil in H.
    + intros [H _]. by apply elem_of_nil in H.
  - rewrite Hb, E. destruct b.
    + exists (x :: kept). split; [done|]. split; [by constructor|].
      intros u. rewrite !elem_of_cons, Hin. split.
      * intros [-> | [? ?]]; [split; [by left | done] | split; [by right | done]].
      * intros [[-> | ?] ?]; [by left | by right].
    + exists kept. split; [done|]. split; [by constructor|].
      intros u. rewrite elem_of_cons, Hin. split.
      * intros [? ?]. split; [by right | done].
      * intros [[-> | ?] ?]; [congruence | done].
Qed.

Lemma filter_throwing_err (p : obj → error + bool) (arr : list obj) :
  Exists (λ x, ∃ e, p x = inl e) arr →
  ∃ x e, x ∈ arr ∧ p x = inl e ∧ filter_throwing p arr = inl e.
Proof.
  induction arr as [|y arr IH]; intros H; [by apply Exists_nil in H|].
  simpl. destruct (p y) as [e|b] eqn:Ey.
  - exists y, e. split; [by left | done].
  - apply Exists_cons in H as [[e He] | H]; [congruence|].
    destruct (IH H) as (x & e & Hx & Hp & E). exists x, e.
    split; [by right|]. split; [done|]. by rewrite E.
Qed.

(** X8: usersByDepartment is read-only.  When every user's department is a
    string, it returns, in the order of the array, exactly the users whose
    department equals the argument once both are put in lower case.  When
    some user's department is not a string (as after an updateUser with
    department null), it throws the TypeError of calling toLowerCase on that
    value. *)
Theorem usersByDepartment_result (toLowerCase : string → string)
  (type_error : value → error) department s :
  (Forall string_department (users s) →
     ∃ kept,
       Query.usersByDepartment toLowerCase type_error department s
       = Outcome (inr kept) s []
       ∧ kept `sublist_of` users s
       ∧ ∀ u, u ∈ kept ↔
              u ∈ users s
              ∧ ∃ d, u !! "department" = Some (VStr d)
                     ∧ toLowerCase d = toLowerCase department)
  ∧ (Exists (λ u, ¬ string_department u) (users s) →
     ∃ u, u ∈ users s ∧ ¬ string_department u
          ∧ Query.usersByDepartment toLowerCase type_error department s
            = Outcome (inl (type_error (get u "department"))) s []).
Proof.
  split; intros H.
  - destruct (filter_throwing_ok
                (Query.same_department toLowerCase type_error department) (users s))
      as (kept & E & Hsub & Hin).
    { eapply Forall_impl; [exact H|]. intros u [d Hd].
      unfold Query.same_department, get. rewrite Hd. simpl. by eexists. }
    exists kept. unfold Query.usersByDepartment, bind. simpl. rewrite E.
    split; [done|]. split; [done|]. intros u. rewrite Hin.
    split; intros [Hu Hp]; (split; [done|]).
    + rewrite Forall_forall in H. destruct (H u Hu) as [d Hd]. exists d.
      split; [done|]. unfold Query.same_department, get in Hp.
      rewrite Hd in Hp. simpl in Hp. injection Hp as Hp.
      by apply String.eqb_eq.
    + destruct Hp as (d & Hd & Hl). unfold Query.same_department, get.
      rewrite Hd. simpl. by rewrite Hl, String.eqb_refl.
  - destruct (filter_throwing_err
                (Query.same_department toLowerCase type_error department) (users s))
      as (u & e & Hu & Hp & E).
    { eapply Exists_impl; [exact H|]. intros u Hn. simpl.
      unfold Query.same_department, get, string_department in *.
      destruct (u !! "department") as [[| | | |d|]|]; simpl; eauto.
      destruct Hn. by exists d. }
    exists u. split; [done|].
    unfold Query.same_department, get, string_department in *.
    destruct (u !! "department") as [[| | | |d|]|] eqn:Hd; simpl in Hp;
      try discriminate; injection Hp as <-;
      (split; [by intros [? ?]|]);
      unfold Query.usersByDepartment, bind; simpl;
      unfold Query.same_department, get; by rewrite E.
Qed.

Lemma usersByDepartment_result_witness :
  (∃ kept,
      Query.usersByDepartment sample_lower sample_type_error "MARKETING"
        initial
      = Outcome (inr kept) initial []
      ∧ kept `sublist_of` users initial
      ∧ ∀ u, u ∈ kept ↔
             u ∈ users initial
             ∧ ∃ d, u !! "department" = Some (VStr d)
                    ∧ sample_lower d = sample_lower "MARKETING")
  ∧ (∃ u, u ∈ users sample_nulled ∧ ¬ string_department u
          ∧ Query.usersByDepartment sample_lower sample_type_error
              "MARKETING" sample_nulled
            = Outcome (inl (sample_type_error (get u "department")))
                sample_nulled []).
Proof.
  split.
  - apply (proj1 (usersByDepartment_result sample_lower sample_type_error
                    "MARKETING" initial)).
    repeat constructor; by eexists.
  - apply (proj2 (usersByDepartment_result sample_lower sample_type_error
                    "MARKETING" sample_nulled)).
    apply Exists_cons_hd. by intros [d Hd].
Defined.

(** ** What a subscriber is handed *)

Lemma resolve_event w s v :
  result (resolve w s) = inr v →
  ∃ us n,
    final (resolve w s)
    = mkServer us n
        (PubSub_publish (topic_of w) {[payload_key w := event_body w v]}
           (pubsub s)).
Proof.
  destruct w as [input|id input|id];
    cbn [resolve topic_of payload_key event_body].
  - rewrite createUser_outcome. cbn [result final]. intros [= <-]. eauto.
  - destruct (Z.eq_dec (findIndex (id_is id) (users s)) (-1)) as [E|E].
    + by rewrite updateUser_missing.
    + destruct (findIndex_some _ _ E) as (old & Hold & _).
      rewrite (updateUser_found id _ s _ old eq_refl E Hold).
      cbn [result final]. intros [= <-]. eauto.
  - destruct (Z.eq_dec (findIndex (id_is id) (users s)) (-1)) as [E|E].
    + by rewrite deleteUser_missing.
    + rewrite (deleteUser_found id s _ eq_refl E).
      cbn [result final]. intros _. eauto.
Qed.

(** X9: a subscriber sees what the caller got.  After a successful write, a
    subscriber attached to the write's trigger whose queue was empty pulls,
    as its next event, the one-property object that wraps the record the
    write returned (for deleteUser, the id that was deleted). *)
Theorem subscriber_gets_result w s h v :
  result (resolve w s) = inr v →
  listening h (topic_of w) s → queue_of h s = [] →
  result (next h (final (resolve w s)))
  = inr (Some {[payload_key w := event_body w v]}).
Proof.
  intros Hv Hl Hq. destruct (resolve_event w s v Hv) as (us & n & ->).
  pose proof (publish_queue (topic_of w)
                {[payload_key w := event_body w v]} h _ s us n Hl) as Hq'.
  rewrite Hq, String.eqb_refl in Hq'. simpl in Hq'.
  destruct (publish_listening (topic_of w)
              {[payload_key w := event_body w v]} h _ s us n Hl)
    as (it & Hit & Hr & _).
  rewrite next_outcome. cbn [result]. unfold PubSub_next.
  unfold queue_of in Hq'. cbn [pubsub] in *. rewrite Hit in Hq' |- *.
  by rewrite Hr, Hq'.
Qed.

Lemma subscriber_gets_result_witness :
  result (next 1 (final (resolve (UpdateUser "2" sample_patch)
                           sample_server)))
  = inr (Some {["userUpdated" :=
                  VObj (spread2 (user "2" "Aisha" 30 85000 "Marketing")
                          (update_input sample_patch))]}).
Proof.
  apply (subscriber_gets_result (UpdateUser "2" sample_patch) sample_server
           1 (VObj (spread2 (user "2" "Aisha" 30 85000 "Marketing")
                      (update_input sample_patch))));
    [reflexivity | by eexists | reflexivity].
Defined.

(** X10: in every state the server reaches from start-up, every user in the
    store is retrieved by its own id: it has a string id, and the user query
    on that id returns that very user. *)
Theorem every_user_is_retrievable (rs : list request) (u : obj) :
  let s := exec rs initial in
  u ∈ users s →
  ∃ id, u !! "id" = Some (VStr id)
        ∧ Query.user id s = Outcome (inr (VObj u)) s [].
Proof.
  intros s Hu.
  assert (Hs : store_ok s) by apply exec_store_ok, initial_store_ok.
  destruct Hs as [Hnd Hb]. rewrite Forall_forall in Hb.
  destruct (Hb (u !! "id")) as (k & _ & Hid).
  { unfold ids. by apply (list_elem_of_fmap_2 (λ u : obj, u !! "id")). }
  exists (pretty k). split; [done|].
  assert (E : findIndex (id_is (pretty k)) (users s) ≠ -1).
  { apply findIndex_present. by exists u. }
  destruct (findIndex_some _ _ E) as (u' & Hu' & Hp & _).
  apply id_is_true in Hp. apply list_elem_of_lookup in Hu as [j Hj].
  assert (j = Z.to_nat (findIndex (id_is (pretty k)) (users s))) as ->.
  { eapply (NoDup_lookup (ids (users s)) _ _ (u !! "id")); [done|..];
      unfold ids; rewrite list_lookup_fmap; [by rewrite Hj|].
    rewrite Hu'. simpl. congruence. }
  by apply user_found.
Qed.

Lemma every_user_is_retrievable_witness :
  ∃ id, user "3" "Ravi" 22 60000 "Support" !! "id" = Some (VStr id)
        ∧ Query.user id (exec sample_run initial)
          = Outcome (inr (VObj (user "3" "Ravi" 22 60000 "Support")))
              (exec sample_run initial) [].
Proof.
  apply (every_user_is_retrievable sample_run
           (user "3" "Ravi" 22 60000 "Support")).
  apply list_elem_of_lookup. by exists 1%nat.
Defined.

(** ** The user table of the client *)

Lemma existsb_eqb (x : string) (l : list string) :
  existsb (String.eqb x) l = true ↔ x ∈ l.
Proof.
  rewrite existsb_exists. split.
  - intros (y & Hy & E). apply String.eqb_eq in E as ->.
    by apply list_elem_of_In.
  - intros H. exists x. split; [by apply list_elem_of_In|].
    apply String.eqb_refl.
Qed.

Lemma set_spread_snoc xs x :
  View.set_spread (xs ++ [x]) =
  if existsb (String.eqb x) (View.set_spread xs) then View.set_spread xs
  else View.set_spread xs ++ [x].
Proof. unfold View.set_spread. by rewrite fold_left_app. Qed.

Lemma set_spread_elem xs x : x ∈ View.set_spread xs ↔ x ∈ xs.
Proof.
  induction xs as [|y xs IH] using rev_ind; [done|].
  rewrite set_spread_snoc.
  destruct (existsb (String.eqb y) (View.set_spread xs)) eqn:E.
  - apply existsb_eqb in E. rewrite elem_of_app, list_elem_of_singleton, IH.
    split; [by left|]. intros [?| ->]; [done|]. by apply IH.
  - by rewrite !elem_of_app, IH.
Qed.

Lemma set_spread_NoDup xs : NoDup (View.set_spread xs).
Proof.
  induction xs as [|y xs IH] using rev_ind; [constructor|].
  rewrite set_spread_snoc.
  destruct (existsb (String.eqb y) (View.set_spread xs)) eqn:E; [done|].
  apply NoDup_app. split; [done|]. split; [|apply NoDup_singleton].
  intros x Hx Hy. apply list_elem_of_singleton in Hy as ->.
  apply existsb_eqb in Hx. congruence.
Qed.

Lemma set_spread_sublist xs : View.set_spread xs `sublist_of` xs.
Proof.
  induction xs as [|y xs IH] using rev_ind; [done|].
  rewrite set_spread_snoc.
  destruct (existsb (String.eqb y) (View.set_spread xs)).
  - by apply sublist_inserts_r.
  - by apply sublist_app.
Qed.

Lemma set_spread_prefix xs ys :
  View.set_spread xs `prefix_of` View.set_spread (xs ++ ys).
Proof.
  induction ys as [|y ys IH] using rev_ind; [by rewrite app_nil_r|].
  rewrite (assoc_L (++)), set_spread_snoc.
  destruct (existsb (String.eqb y) (View.set_spread (xs ++ ys))); [done|].
  by apply prefix_app_r.
Qed.

Lemma departments_options_aux (users : list View.User) :
  NoDup (View.departments users)
  ∧ (∀ d, d ∈ View.departments users ↔
          ∃ u, u ∈ users ∧ View.department u = d).
Proof.
  unfold View.departments. split; [apply set_spread_NoDup|].
  intros d. rewrite set_spread_elem.
  change (map View.department users) with (View.department <$> users).
  rewrite list_elem_of_fmap. split; intros (u & ? & ?); by exists u.
Qed.

(** X11: the options of the department filter are the departments of the
    users, each once, in the order in which they first occur in the list of
    users; users further down the list never reorder the options found so
    far. *)
Theorem departments_options (users more : list View.User) :
  NoDup (View.departments users)
  ∧ (∀ d, d ∈ View.departments users ↔
          ∃ u, u ∈ users ∧ View.department u = d)
  ∧ View.departments users `sublist_of` map View.department users
  ∧ View.departments users `prefix_of` View.departments (users ++ more).
Proof.
  unfold View.departments. split; [apply set_spread_NoDup|].
  split; [|split].
  - intros d. rewrite set_spread_elem.
    change (map View.department users) with (View.department <$> users).
    rewrite list_elem_of_fmap. split; intros (u & ? & ?); by exists u.
  - apply set_spread_sublist.
  - rewrite map_app. apply set_spread_prefix.
Qed.

Lemma rows_elem d users u :
  u ∈ View.rows d users ↔
  u ∈ users ∧ (d = "" ∨ View.department u = d).
Proof.
  unfold View.rows. rewrite !list_elem_of_In, filter_In.
  rewrite orb_true_iff, !String.eqb_eq. done.
Qed.

(** X12: the rows of the table.  With the empty filter every user is shown.
    With any other filter exactly the users of that very department are
    shown, in the order of the list.  Every option of the department filter
    shows at least one row. *)
Theorem rows_of_filter (d : string) (users : list View.User) :
  (d = "" → View.rows d users = users)
  ∧ (d ≠ "" → ∀ u, u ∈ View.rows d users ↔
                   u ∈ users ∧ View.department u = d)
  ∧ (d ∈ View.departments users → View.rows d users ≠ [])
  ∧ View.rows d users `sublist_of` users.
Proof.
  split; [|split; [|split]].
  - intros ->. unfold View.rows. simpl. induction users as [|u us IH];
      simpl; [done|]. by rewrite IH.
  - intros Hd u. rewrite rows_elem. split.
    + intros [Hu [?|?]]; done.
    + intros [Hu ?]. split; [done | by right].
  - intros Hd E.
    apply (proj2 (departments_options_aux users)) in Hd
      as (u & Hu & Hdu).
    assert (u ∈ View.rows d users) as Hin
      by (apply rows_elem; split; [done | by right]).
    rewrite E in Hin. by apply elem_of_nil in Hin.
  - unfold View.rows. induction users as [|u us IH]; simpl; [done|].
    destruct (_ || _); by constructor.
Qed.

Lemma rows_of_filter_witness :
  View.rows "" sample_table = sample_table
  ∧ (∀ u, u ∈ View.rows "Engineering" sample_table ↔
          u ∈ sample_table ∧ View.department u = "Engineering")
  ∧ View.rows "Marketing" sample_table ≠ [].
Proof.
  split; [|split].
  - by apply (proj1 (rows_of_filter "" sample_table)).
  - by apply (proj1 (proj2 (rows_of_filter "Engineering" sample_table))).
  - apply (proj1 (proj2 (proj2 (rows_of_filter "Marketing" sample_table)))).
    unfold View.departments, sample_table. simpl.
    apply elem_of_cons. right. by left.
Defined.

(** ** The shape of a user *)

Lemma dom_set_field {A} k (inj : A → value) f (o : obj) :
  dom (set_field k inj f o) ⊆ {[k]} ∪ dom o.
Proof. destruct f; simpl; rewrite ?dom_insert_L; set_solver. Qed.

Lemma dom_update_input input :
  dom (update_input input) ⊆ {["name"; "age"; "salary"; "department"]}.
Proof.
  unfold update_input.
  repeat (etrans; [apply dom_set_field|]; apply union_least; [set_solver|]).
  rewrite dom_empty_L. set_solver.
Qed.

Lemma dom_create_input input :
  dom (create_input input) = {["name"; "age"; "salary"; "department"]}.
Proof.
  unfold create_input. rewrite !dom_insert_L, dom_empty_L. set_solver.
Qed.

Lemma input_fields :
  ({["name"; "age"; "salary"; "department"]} : gset string) ⊆ user_fields.
Proof.
  unfold user_fields. intros x.
  rewrite !elem_of_union, !elem_of_singleton. tauto.
Qed.

Lemma resolve_well_shaped w s :
  well_shaped s → well_shaped (final (resolve w s)).
Proof.
  unfold well_shaped. intros Hs.
  destruct w as [input|id input|id]; cbn [resolve].
  - rewrite createUser_outcome. cbn [final users].
    apply Forall_app. split; [done|]. constructor; [|constructor].
    unfold created, spread2, user_fields.
    rewrite dom_union_L, dom_create_input, dom_singleton_L. set_solver.
  - destruct (Z.eq_dec (findIndex (id_is id) (users s)) (-1)) as [E|E].
    + by rewrite updateUser_missing.
    + destruct (findIndex_some _ _ E) as (old & Hold & _).
      rewrite (updateUser_found id _ s _ old eq_refl E Hold).
      cbn [final users]. apply Forall_insert; [done|].
      rewrite Forall_forall in Hs.
      pose proof (Hs old (list_elem_of_lookup_2 _ _ _ Hold)) as Hd.
      pose proof (dom_update_input input) as Hi.
      unfold spread2. rewrite dom_union_L, Hd. unfold user_fields.
      apply subseteq_union_1_L. etrans; [exact Hi | apply input_fields].
  - destruct (Z.eq_dec (findIndex (id_is id) (users s)) (-1)) as [E|E].
    + by rewrite deleteUser_missing.
    + rewrite (deleteUser_found id s _ eq_refl E). cbn [final users].
      by apply Forall_delete.
Qed.

Lemma exec_well_shaped rs s : well_shaped s → well_shaped (exec rs s).
Proof.
  revert s. induction rs as [|r rs IH]; intros s Hs; [done|].
  rewrite exec_cons. apply IH. destruct r as [w|f c|h|h].
  - destruct (handle_mutate w s) as (-> & _). by apply resolve_well_shaped.
  - destruct (handle_store (Subscribe f c) s) as (Hu & _); [done|].
    unfold well_shaped. by rewrite Hu.
  - destruct (handle_store (Next h) s) as (Hu & _); [done|].
    unfold well_shaped. by rewrite Hu.
  - destruct (handle_store (Return h) s) as (Hu & _); [done|].
    unfold well_shaped. by rewrite Hu.
Qed.

(** X13: in every state the server reaches from start-up, every user in the
    store has exactly the five fields of the schema's User type: createUser
    adds the id to the four input fields, and updateUser can overwrite fields
    but neither add nor remove one. *)
Theorem users_keep_their_shape (rs : list request) (u : obj) :
  u ∈ users (exec rs initial) → dom u = user_fields.
Proof.
  assert (H0 : well_shaped initial).
  { unfold well_shaped, initial, user, user_fields. cbn [users].
    repeat constructor; rewrite !dom_insert_L, dom_empty_L; set_solver. }
  pose proof (exec_well_shaped rs initial H0) as H.
  unfold well_shaped in H. rewrite Forall_forall in H. apply H.
Qed.

Lemma users_keep_their_shape_witness :
  dom (user "3" "Ravi" 22 60000 "Support") = user_fields.
Proof.
  apply (users_keep_their_shape sample_run).
  apply list_elem_of_lookup. by exists 1%nat.
Defined.

(** ** Counting *)

Lemma handle_count r s :
  let o := handle r s in
  nextUserId (final o)
  = (nextUserId s + (if is_create r then 1 else 0))%N
  ∧ (length (users (final o))
     + (if is_deleted (mkEntry r (result o) (effects o)) then 1 else 0)
     = length (users s) + (if is_create r then 1 else 0))%nat.
Proof.
  destruct r as [w|f c|h|h]; cbn zeta.
  - destruct (handle_mutate w s) as (-> & _ & Hres).
    unfold is_deleted. cbn [e_request e_result]. rewrite Hres.
    destruct w as [input|id input|id]; cbn [resolve is_create].
    + rewrite createUser_outcome. cbn [final users nextUserId result].
      rewrite length_app. simpl. split; lia.
    + destruct (Z.eq_dec (findIndex (id_is id) (users s)) (-1)) as [E|E].
      * rewrite updateUser_missing by done. simpl. split; lia.
      * destruct (findIndex_some _ _ E) as (old & Hold & _).
        rewrite (updateUser_found id _ s _ old eq_refl E Hold).
        cbn [final users nextUserId result]. rewrite length_insert.
        simpl. split; lia.
    + destruct (Z.eq_dec (findIndex (id_is id) (users s)) (-1)) as [E|E].
      * rewrite deleteUser_missing by done. simpl. split; lia.
      * destruct (findIndex_some _ _ E) as (u & Hu & _).
        rewrite (deleteUser_found id s _ eq_refl E).
        cbn [final users nextUserId result]. rewrite length_delete by eauto.
        pose proof (lookup_lt_Some _ _ _ Hu). simpl. split; lia.
  - destruct (handle_store (Subscribe f c) s) as (-> & -> & _); [done|].
    unfold is_deleted. simpl. split; lia.
  - destruct (handle_store (Next h) s) as (-> & -> & _); [done|].
    unfold is_deleted. simpl. split; lia.
  - destruct (handle_store (Return h) s) as (-> & -> & _); [done|].
    unfold is_deleted. simpl. split; lia.
Qed.

(** X14: over any run, the counter has grown by the number of createUser
    requests, which never fail, and by nothing else: a failed or successful
    updateUser or deleteUser uses up no id.  The number of users has grown by
    the number of createUser requests less the number of deleteUser requests
    that succeeded. *)
Theorem ids_and_users_counted (rs : list request) (s : Server) :
  nextUserId (exec rs s)
  = (nextUserId s + N.of_nat (length (List.filter is_create rs)))%N
  ∧ (length (users (exec rs s))
     + length (List.filter is_deleted (trace rs s))
     = length (users s) + length (List.filter is_create rs))%nat.
Proof.
  revert s. induction rs as [|r rs IH]; intros s.
  - unfold exec, trace. simpl. split; lia.
  - rewrite exec_cons, trace_cons. destruct (handle_count r s) as [Hn Hl].
    destruct (IH (final (handle r s))) as [IHn IHl].
    rewrite IHn, Hn. simpl.
    destruct (is_create r), (is_deleted _); simpl in *; split; lia.
Qed.
